(** * Seminar 15 (parallel): shallow embedding of [matmul.py] and [habr.py],
      and of the toy web endpoint of Seminar 11. *)

From Stdlib Require Import ZArith Lia String Ascii.
From Stdlib Require Import PrimFloat Floats.
From stdpp Require Import base list gmap strings pretty.

Open Scope string_scope.

(* ------------------------------------------------------------------ *)
(** ** Python exceptions and a small error monad                        *)
(* ------------------------------------------------------------------ *)

Module Py.

(** The exceptions the modelled code can raise. *)
Inductive exc :=
  | IndexError
  | TypeError
  | ValueError (msg : string)
  | ConnectionError.

(** A Python computation: a value, or a raised exception. *)
Inductive res (A : Type) :=
  | Ok (a : A)
  | Err (e : exc).
Arguments Ok {A} a.
Arguments Err {A} e.

Global Instance res_ret : MRet res := fun A a => Ok a.
Global Instance res_bind : MBind res := fun A B k m =>
  match m with Ok a => k a | Err e => Err e end.

(** [xs[i]] for [0 <= i]: [IndexError] out of range. *)
Definition getitem {A} (xs : list A) (i : nat) : res A :=
  match xs !! i with Some x => Ok x | None => Err IndexError end.

(** [xs[i] = x] for [0 <= i]: [IndexError] out of range. *)
Definition setitem {A} (xs : list A) (i : nat) (x : A) : res (list A) :=
  if decide (i < length xs) then Ok (<[i := x]> xs) else Err IndexError.

(** [for i in xs: s = body(i, s)], the loop state threaded explicitly;
    an exception aborts the loop. *)
Fixpoint for_in {S} (xs : list nat) (body : nat -> S -> res S) (s : S) : res S :=
  match xs with
  | [] => Ok s
  | x :: xs' => s' ← body x s; for_in xs' body s'
  end.

(** [range(a, b)] on Python integers. *)
Definition range (a b : Z) : list Z :=
  map (fun k => a + Z.of_nat k)%Z (seq 0 (Z.to_nat (b - a))).

(** A [None] lookup raises [IndexError]: [xs[i][k]] read as one lookup. *)
Definition opt_res {A} (o : option A) : res A :=
  match o with Some x => Ok x | None => Err IndexError end.

(** [[x] * n] *)
Definition list_mul {A} (x : A) (n : Z) : list A := replicate (Z.to_nat n) x.

End Py.

Import Py.

(* ------------------------------------------------------------------ *)
(** ** [matmul.py]: [matmul]                                           *)
(* ------------------------------------------------------------------ *)

Module MatMul.

Section Scalar.
(** The scalar type of the matrix entries ([float] in the source) with the
    literal [0.0] and the operators [+] and [*]. *)
Context {R : Type} (zero : R) (add mul : R -> R -> R).

(** One step of the innermost loop: [C[i][j] += A[i][k] * B[k][j]]. *)
Definition mac_step (A B : list (list R)) (i j k : nat) (C : list (list R))
    : res (list (list R)) :=
  Ci ← getitem C i;
  cij ← getitem Ci j;
  Ai ← getitem A i;
  aik ← getitem Ai k;
  Bk ← getitem B k;
  bkj ← getitem Bk j;
  Ci' ← setitem Ci j (add cij (mul aik bkj));
  setitem C i Ci'.

(** [matmul(A, B)]; the [print("Finished")] marker is an output effect that
    does not touch the returned matrix and is left out here. *)
Definition matmul (A B : list (list R)) : res (list (list R)) :=
  A0 ← getitem A 0;
  let m := length A in
  let l := length A0 in
  B0 ← getitem B 0;
  let n := length B0 in
  let C := replicate m (replicate n zero) in
  for_in (seq 0 m) (fun i C =>
    for_in (seq 0 n) (fun j C =>
      for_in (seq 0 l) (fun k C => mac_step A B i j k C) C) C) C.


(** One accumulation step for entry [(i, j)]: [acc + A[i][k] * B[k][j]]. *)
Definition term (A B : list (list R)) (i j : nat) (acc : R) (k : nat) : R :=
  add acc (mul (nth k (nth i A []) zero) (nth j (nth k B []) zero)).

(** The left-to-right accumulation the loop performs for one entry:
    [((0.0 + A[i][0]*B[0][j]) + A[i][1]*B[1][j]) + ... + A[i][l-1]*B[l-1][j]]. *)
Definition dot (A B : list (list R)) (i j l : nat) : R :=
  foldl (term A B i j) zero (seq 0 l).

(** The [m x n] matrix whose entry [(i, j)] is [dot A B i j l], with
    [m = len(A)], [l = len(A[0])] and [n = len(B[0])]. *)
Definition product (A B : list (list R)) : list (list R) :=
  let l := length (nth 0 A []) in
  let n := length (nth 0 B []) in
  map (fun i => map (fun j => dot A B i j l) (seq 0 n)) (seq 0 (length A)).

(** The shapes for which every index [matmul] uses is in range: [A] and [B]
    non-empty, every row of [A] at least [len(A[0])] long, [B] with at least
    [len(A[0])] rows, every row of [B] at least [len(B[0])] long. *)
Definition in_range (A B : list (list R)) : Prop :=
  A <> [] /\ B <> [] /\
  Forall (fun Ai => length (nth 0 A []) <= length Ai) A /\
  length (nth 0 A []) <= length B /\
  Forall (fun Bk => length (nth 0 B []) <= length Bk) B.

End Scalar.

(** Test matrices: the [l x l] identity and the [r x c] zero matrix. *)
Definition identity {R} (zero one : R) (l : nat) : list (list R) :=
  map (fun i => map (fun k => if decide (i = k) then one else zero) (seq 0 l)) (seq 0 l).

Definition zeros {R} (zero : R) (r c : nat) : list (list R) :=
  replicate r (replicate c zero).

(** [M] is a rectangular [r x c] matrix. *)
Definition shape {R} (M : list (list R)) (r c : nat) : Prop :=
  length M = r /\ Forall (fun row => length row = c) M.

(** [matmul] on the source's scalar type, IEEE binary64 [float]. *)
Definition fmatmul : list (list float) -> list (list float) -> res (list (list float)) :=
  matmul 0%float PrimFloat.add PrimFloat.mul.

(** Python's [==] on lists: equal lengths and elementwise [==]. *)
Fixpoint list_eqb {A} (eqb : A -> A -> bool) (xs ys : list A) : bool :=
  match xs, ys with
  | [], [] => true
  | x :: xs', y :: ys' => eqb x y && list_eqb eqb xs' ys'
  | _, _ => false
  end.

(** [C == B] on matrices of floats (IEEE equality: [0.0 == -0.0], [nan != nan]). *)
Definition float_matrix_eq (C B : list (list float)) : bool :=
  list_eqb (list_eqb PrimFloat.eqb) C B.

End MatMul.

(* ------------------------------------------------------------------ *)
(** ** [matmul.py]: [multy_thread], threads over a shared heap          *)
(* ------------------------------------------------------------------ *)

(** The Python objects [matmul] touches live in a heap of lists: a list of
    rows holds references to row lists, a row holds floats. The [njobs]
    threads of [multy_thread] all receive the same [A] and [B] and run
    [matmul] interleaved by a schedule; each step of a thread is one step of
    the source (the reads of the shapes together with the allocation of [C],
    the reads of one [C[i][j] += A[i][k] * B[k][j]], its store, or one loop
    test). *)
Module MatMulHeap.

Definition loc := positive.

(** A value stored in a list: a float, or a reference to another list. *)
Inductive val (R : Type) := VFloat (r : R) | VRef (x : loc).
Arguments VFloat {R} r.
Arguments VRef {R} x.

Abbreviation heap R := (gmap loc (list (val R))) (only parsing).

(** The state of one thread running [matmul(A, B)] with [A] at [a] and [B]
    at [b]: not started, at loop indices [i, j, k] of [C] at [c], between
    the reads and the store of [C[i][j] += ...] (the row [C[i]] at [ci],
    the new value [v]), returned [C], or ended by an exception. *)
Inductive tstate (R : Type) :=
  | Start (a b : loc)
  | Loop (a b c : loc) (m l n i j k : nat)
  | Store (a b c : loc) (m l n i j k : nat) (ci : loc) (v : R)
  | Finished (c : loc)
  | Raised (e : exc).
Arguments Start {R} a b.
Arguments Loop {R} a b c m l n i j k.
Arguments Store {R} a b c m l n i j k ci v.
Arguments Finished {R} c.
Arguments Raised {R} e.

Section Threads.
Context {R : Type} (zero : R) (add mul : R -> R -> R).

(** The list object at [x]. *)
Definition obj (h : heap R) (x : loc) : res (list (val R)) :=
  match h !! x with Some o => Ok o | None => Err TypeError end.

(** A value used as a list ([len], subscript): a float is not one. *)
Definition as_ref (v : val R) : res loc :=
  match v with VRef x => Ok x | VFloat _ => Err TypeError end.

Definition deref (h : heap R) (v : val R) : res (list (val R)) :=
  x ← as_ref v; obj h x.

(** A value used as a float operand of [+] and [*]. *)
Definition as_float (v : val R) : res R :=
  match v with VFloat r => Ok r | VRef _ => Err TypeError end.

(** A new list object at a location not in use. *)
Definition alloc (h : heap R) (o : list (val R)) : heap R * loc :=
  let x := fresh (dom h) in (<[x := o]> h, x).

(** The rows of [[[0.0] * n for _ in range(m)]]. *)
Fixpoint alloc_rows (h : heap R) (m n : nat) : heap R * list loc :=
  match m with
  | 0 => (h, [])
  | S m' =>
      let '(h1, x) := alloc h (replicate n (VFloat zero)) in
      let '(h2, xs) := alloc_rows h1 m' n in
      (h2, x :: xs)
  end.

(** [m, l = len(A), len(A[0])] and [_, n = len(B), len(B[0])]. *)
Definition read_shape (h : heap R) (a b : loc) : res (nat * nat * nat) :=
  A ← obj h a;
  A0 ← getitem A 0 ≫= deref h;
  B ← obj h b;
  B0 ← getitem B 0 ≫= deref h;
  Ok (length A, length A0, length B0).

(** The reads of [C[i][j] += A[i][k] * B[k][j]]: the row [C[i]] the store
    goes to, and the value to store. *)
Definition read_mac (h : heap R) (a b c : loc) (i j k : nat) : res (loc * R) :=
  C ← obj h c;
  ci ← getitem C i ≫= as_ref;
  Ci ← obj h ci;
  cij ← getitem Ci j ≫= as_float;
  A ← obj h a;
  Ai ← getitem A i ≫= deref h;
  aik ← getitem Ai k ≫= as_float;
  B ← obj h b;
  Bk ← getitem B k ≫= deref h;
  bkj ← getitem Bk j ≫= as_float;
  Ok (ci, add cij (mul aik bkj)).

(** One step of a thread. The loops [for i in range(m)], [for j in range(n)],
    [for k in range(l)] test their index before each body. (CPython creates
    the outer list of [C] before its rows; only the freshness of the
    locations matters here.) *)
Definition step (h : heap R) (s : tstate R) : heap R * tstate R :=
  match s with
  | Start a b =>
      match read_shape h a b with
      | Err e => (h, Raised e)
      | Ok (m, l, n) =>
          let '(h1, rows) := alloc_rows h m n in
          let '(h2, c) := alloc h1 (VRef <$> rows) in
          (h2, Loop a b c m l n 0 0 0)
      end
  | Loop a b c m l n i j k =>
      if decide (m <= i) then (h, Finished c)
      else if decide (n <= j) then (h, Loop a b c m l n (S i) 0 0)
      else if decide (l <= k) then (h, Loop a b c m l n i (S j) 0)
      else match read_mac h a b c i j k with
           | Err e => (h, Raised e)
           | Ok (ci, v) => (h, Store a b c m l n i j k ci v)
           end
  | Store a b c m l n i j k ci v =>
      match (Ci ← obj h ci; setitem Ci j (VFloat v)) with
      | Err e => (h, Raised e)
      | Ok Ci' => (<[ci := Ci']> h, Loop a b c m l n i j (S k))
      end
  | Finished c => (h, Finished c)
  | Raised e => (h, Raised e)
  end.

(** The scheduler runs one step of thread [t]. *)
Definition step_thread (st : heap R * list (tstate R)) (t : nat)
    : heap R * list (tstate R) :=
  let '(h, ths) := st in
  match ths !! t with
  | Some s => let '(h', s') := step h s in (h', <[t := s']> ths)
  | None => st
  end.

Definition run_sched (sched : list nat) (st : heap R * list (tstate R))
    : heap R * list (tstate R) :=
  foldl step_thread st sched.

(** [multy_thread(njobs)] on the heap [h0] holding [A] at [a] and [B] at
    [b]: [njobs] threads [matmul(A, B)] started, run under [sched]. *)
Definition multy_thread (h0 : heap R) (a b : loc) (njobs : nat) (sched : list nat)
    : heap R * list (tstate R) :=
  run_sched sched (h0, replicate njobs (Start a b)).

End Threads.

(** The frame argument: [h] extends [h0], and the objects created since
    [h0] hold no reference into [h0]. *)
Definition frame_inv {R} (h0 h : heap R) : Prop :=
  h0 ⊆ h /\
  forall x o y, x ∉ dom h0 -> h !! x = Some o -> VRef y ∈ o -> y ∉ dom h0.

(** The result matrix of a thread and the row it stores into are new. *)
Definition thread_ok {R} (h0 : heap R) (s : tstate R) : Prop :=
  match s with
  | Start _ _ | Raised _ => True
  | Loop _ _ c _ _ _ _ _ _ | Finished c => c ∉ dom h0
  | Store _ _ c _ _ _ _ _ _ ci _ => (c ∉ dom h0) /\ (ci ∉ dom h0)
  end.

(** A heap with [A = [[1, 2]]] at location 1 and [B = [[3], [4]]] at 3. *)
Definition example_heap : heap Z :=
  list_to_map [(1%positive, [VRef 2%positive]);
               (2%positive, [VFloat 1%Z; VFloat 2%Z]);
               (3%positive, [VRef 4%positive; VRef 5%positive]);
               (4%positive, [VFloat 3%Z]);
               (5%positive, [VFloat 4%Z])].

(** Two threads on it, alternating step by step until both return. *)
Definition example_sched : list nat := concat (replicate 8 [0; 1]).

(** The correctness argument for the threads' results. *)
Section Results.
Context {R : Type} (zero : R) (add mul : R -> R -> R).

(** The list at [x] holds references to rows holding the floats of [M]. *)
Definition encodes (h : heap R) (x : loc) (M : list (list R)) : Prop :=
  exists rows, h !! x = Some (VRef <$> rows) /\
    Forall2 (fun r row => h !! r = Some (VFloat <$> row)) rows M.

(** Entry [(i', j')] of [C] when the loops are at [(i, j, k)]: finished
    entries hold their dot product, entry [(i, j)] the first [k] terms, the
    later ones [0.0]. *)
Definition partial_entry (A B : list (list R)) (l i j k i' j' : nat) : R :=
  if decide (i' < i \/ (i' = i /\ j' < j)) then MatMul.dot zero add mul A B i' j' l
  else if decide (i' = i /\ j' = j) then foldl (MatMul.term zero add mul A B i j) zero (seq 0 k)
  else zero.

Definition partial (A B : list (list R)) (m l n i j k : nat) : list (list R) :=
  map (fun i' => map (fun j' => partial_entry A B l i j k i' j') (seq 0 n)) (seq 0 m).

(** The locations a thread has allocated: its [C] and [C]'s rows. *)
Definition owned (s : tstate R) (rows : list loc) : list loc :=
  match s with
  | Loop _ _ c _ _ _ _ _ _ | Store _ _ c _ _ _ _ _ _ _ _ | Finished c => c :: rows
  | Start _ _ | Raised _ => []
  end.

(** What a thread running [matmul(A, B)] has computed so far, [rows] being
    the rows of its [C]. *)
Definition thread_inv (h : heap R) (a b : loc) (A B : list (list R))
    (s : tstate R) (rows : list loc) : Prop :=
  match s with
  | Start a' b' => a' = a /\ b' = b
  | Loop a' b' c m l n i j k =>
      a' = a /\ b' = b /\ m = length A /\ l = length (nth 0 A []) /\
      n = length (nth 0 B []) /\ k <= l /\
      h !! c = Some (VRef <$> rows) /\
      Forall2 (fun r row => h !! r = Some (VFloat <$> row)) rows (partial A B m l n i j k)
  | Store a' b' c m l n i j k ci v =>
      a' = a /\ b' = b /\ m = length A /\ l = length (nth 0 A []) /\
      n = length (nth 0 B []) /\ k < l /\ j < n /\ i < m /\
      h !! c = Some (VRef <$> rows) /\
      Forall2 (fun r row => h !! r = Some (VFloat <$> row)) rows (partial A B m l n i j k) /\
      rows !! i = Some ci /\
      v = foldl (MatMul.term zero add mul A B i j) zero (seq 0 (S k))
  | Finished c =>
      h !! c = Some (VRef <$> rows) /\
      Forall2 (fun r row => h !! r = Some (VFloat <$> row)) rows
        (MatMul.product zero add mul A B)
  | Raised _ => True
  end.

(** All threads at once, [g t] the rows of thread [t]'s [C]: the heap
    frames [h0], every thread's invariant holds, and the threads' new
    locations are in use, new, and pairwise disjoint. *)
Definition threads_inv (h0 h : heap R) (a b : loc) (A B : list (list R))
    (ths : list (tstate R)) (g : nat -> list loc) : Prop :=
  frame_inv h0 h /\
  (forall t s, ths !! t = Some s ->
     thread_inv h a b A B s (g t) /\ NoDup (owned s (g t)) /\
     Forall (fun x => x ∈ dom h /\ x ∉ dom h0) (owned s (g t))) /\
  (forall t t' s s' x, t <> t' -> ths !! t = Some s -> ths !! t' = Some s' ->
     x ∈ owned s (g t) -> x ∈ owned s' (g t') -> False).

End Results.

End MatMulHeap.

(* ------------------------------------------------------------------ *)
(** ** [habr.py]: the execution strategies                            *)
(* ------------------------------------------------------------------ *)

Module Habr.

(** [" " * n] *)
Fixpoint spaces (n : nat) : string :=
  match n with 0 => "" | S n' => String " "%char (spaces n') end.

(** [f"{i:2}"]: the decimal digits of [i], right-aligned in width 2. *)
Definition fmt2 (i : Z) : string :=
  let s := pretty i in spaces (2 - String.length s) ++ s.

(** [print(f"Article {i:2} title: {title}")] *)
Definition line (i : Z) (title : string) : string :=
  "Article " ++ fmt2 i ++ " title: " ++ title.

(** [for i, title in enumerate(titles, start=1): print(...)] *)
Definition print_titles (titles : list string) : list string :=
  imap (fun k t => line (Z.of_nat k + 1) t) titles.

(** The strategies are parameterised by the work function: [get_article_title]
    in the source, with its result as [str(...)] renders it. It is taken to
    be deterministic here; the network behaviour is modelled in [Fetch]. *)
Section Strategies.
Context (get_article_title : Z -> string).

(** [single]: the sequential baseline; returns [titles] and the printed lines. *)
Definition single (n_tasks : Z) : list string * list string :=
  let titles := map get_article_title (range 1 n_tasks) in
  (titles, print_titles titles).

(** The shared module-level state of [threads]: the global [titles] list, and
    the log of the slots written into it. *)
Record store := { titles : list string; written : list Z }.

(** The two thread targets the module defines. *)
Inductive target := T_get_article_title | T_get_article_title_ths.

Record thread := { th_target : target; th_arg : Z }.

(** [titles[z] = x] with Python's negative indices. *)
Definition py_setitem {A} (xs : list A) (z : Z) (x : A) : res (list A) :=
  if decide (0 <= z)%Z then setitem xs (Z.to_nat z) x
  else if decide (- Z.of_nat (length xs) <= z)%Z
       then setitem xs (Z.to_nat (Z.of_nat (length xs) + z)) x
       else Err IndexError.

(** A thread's run on the shared store. The computation of the title touches
    no shared state; the write of [get_article_title_ths] happens under
    [mutex], so it is one atomic step. An exception ends the thread and
    leaves the store as it was. *)
Definition run_thread (th : thread) (st : store) : store :=
  match th_target th with
  | T_get_article_title =>
      (* [get_article_title(i)]: the result is dropped by [Thread.run] *)
      st
  | T_get_article_title_ths =>
      match py_setitem (titles st) (th_arg th - 1)%Z (get_article_title (th_arg th)) with
      | Ok ts => {| titles := ts; written := written st ++ [(th_arg th - 1)%Z] |}
      | Err _ => st
      end
  end.

(** The threads [threads] creates: [Thread(target=get_article_title, args=(i,))]
    for [i in range(1, n_tasks+1)]. *)
Definition spawned (tgt : target) (n_tasks : Z) : list thread :=
  map (fun i => {| th_target := tgt; th_arg := i |}) (range 1 (n_tasks + 1)).

(** Running the spawned threads in the order [sched] (thread indices); after
    every thread is started and joined, [sched] lists each index once. *)
Definition run_threads (ths : list thread) (sched : list nat) (st : store) : store :=
  foldl (fun st k => match ths !! k with Some th => run_thread th st | None => st end)
    st sched.

(** [threads]: the final shared store and the printed lines. *)
Definition threads_with (tgt : target) (n_tasks : Z) (sched : list nat)
    : store * list string :=
  let st0 := {| titles := list_mul "" n_tasks; written := [] |} in
  let st := run_threads (spawned tgt n_tasks) sched st0 in
  (st, print_titles (titles st)).

Definition threads (n_tasks : Z) (sched : list nat) : store * list string :=
  threads_with T_get_article_title n_tasks sched.

End Strategies.

(** [Pool.map(func, xs)]: the workers complete the tasks in the order
    [order] (task positions), each result is stored at its task's position,
    and the call returns once every slot is filled ([None]: still waiting). *)
Definition pool_map {A B} (f : A -> B) (xs : list A) (order : list nat) : option (list B) :=
  let slots := foldl (fun slots k => match xs !! k with
                                     | Some x => <[k := Some (f x)]> slots
                                     | None => slots end)
                 (replicate (length xs) None) order in
  mapM id slots.

(** [Pool(pool_size)]: fewer than one worker raises [ValueError]. *)
Definition make_pool (pool_size : Z) : res unit :=
  if decide (pool_size < 1)%Z then Err (ValueError "Number of processes must be at least 1")
  else Ok ().

Section Pools.
Context (get_article_title : Z -> string).

(** [thread_pool]: [multiprocessing.dummy.Pool(pool_size).map(get_article_title,
    range(1, n_tasks))], then the printed lines. *)
Definition thread_pool (n_tasks pool_size : Z) (order : list nat)
    : res (option (list string * list string)) :=
  _ ← make_pool pool_size;
  Ok (titles ← pool_map get_article_title (range 1 n_tasks) order;
      Some (titles, print_titles titles)).

(** [process_pool]: the same with [multiprocessing.Pool]; the arguments and
    results are pickled across the process boundary, which leaves their
    values unchanged. *)
Definition process_pool (n_tasks pool_size : Z) (order : list nat)
    : res (option (list string * list string)) :=
  _ ← make_pool pool_size;
  Ok (titles ← pool_map get_article_title (range 1 n_tasks) order;
      Some (titles, print_titles titles)).

End Pools.

End Habr.

(* ------------------------------------------------------------------ *)
(** ** [habr.py]: fetching a page and its title                        *)
(* ------------------------------------------------------------------ *)

Module Fetch.

(** A [requests.Response]: its status code and body. *)
Record response := { status_code : Z; text : string }.

(** What one [requests.get(url, headers=headers)] call does. *)
Inductive outcome := Returns (page : response) | Raises (e : exc).

(** The observable effects: HTTP requests and [time.sleep] calls. *)
Inductive event := Get (url : string) | Sleep (t : Z).

(** The values [get_article_title] returns: the string ["NOT FOUND"], or
    [soup.title], a tag or [None]. *)
Inductive title_value (Tag : Type) := PyStr (s : string) | PyTitle (t : option Tag).
Arguments PyStr {Tag} s.
Arguments PyTitle {Tag} t.

Section Fetching.
(** [net url a]: the outcome of the [a]-th request to [url]. *)
Context (net : string -> nat -> outcome).
(** [BeautifulSoup(article, features="lxml").title] *)
Context {Tag : Type} (soup_title : string -> option Tag).

(** The [for _ in range(n_attempts)] loop of [get_page], at attempt [a] with
    [left] attempts to go; it returns the page (or [None]) and the events. *)
Fixpoint get_page_loop (url : string) (t_sleep : Z) (a left : nat)
    : res (option response) * list event :=
  match left with
  | 0 => (Ok None, [])
  | S left' =>
      match net url a with
      | Raises e => (Err e, [Get url])
      | Returns page =>
          if decide (status_code page = 200)%Z then (Ok (Some page), [Get url])
          else let '(r, evs) := get_page_loop url t_sleep (S a) left' in
               (r, Get url :: Sleep t_sleep :: evs)
      end
  end.

(** [get_page(url, n_attempts=5, t_sleep=1)] *)
Definition get_page (url : string) (n_attempts t_sleep : Z)
    : res (option response) * list event :=
  get_page_loop url t_sleep 0 (Z.to_nat n_attempts).

Definition base_url (article_number : Z) : string :=
  "https://habr.com/ru/articles/" ++ pretty article_number.

(** [get_habr_article]: [if page:] is [Response.ok], i.e. a status below 400. *)
Definition get_habr_article (article_number : Z) : res (option string) * list event :=
  let '(r, evs) := get_page (base_url article_number) 5 1 in
  (page ← r;
   match page with
   | Some p => if decide (status_code p < 400)%Z then Ok (Some (text p)) else Ok None
   | None => Ok None
   end, evs).

(** [get_article_title] *)
Definition get_article_title (article_number : Z) : res (title_value Tag) * list event :=
  let '(r, evs) := get_habr_article article_number in
  (article ← r;
   match article with
   | None => Ok (PyStr "NOT FOUND")
   | Some a => Ok (PyTitle (soup_title a))
   end, evs).

End Fetching.

(** The first [d] requests to [url] all return a non-200 response. *)
Definition fails_before (net : string -> nat -> outcome) (url : string) (d : nat) : Prop :=
  forall d', d' < d -> exists p, net url d' = Returns p /\ status_code p <> 200%Z.


End Fetch.

(* ------------------------------------------------------------------ *)
(** ** Seminar 11: the toy web endpoint                                *)
(* ------------------------------------------------------------------ *)

Module Server.

Section App.
(** Modelled from the spec: [find_palindrome], imported from the module
    [longest_palindrome] that is not among the sources, is a pure function
    of its input string. *)
Context (find_palindrome : string -> string).

(** The route handler [longest_palindrome(input_string)]. *)
Definition longest_palindrome (input_string : string) : string :=
  find_palindrome input_string.

(** The server over a shared state [st] (the application object and
    whatever else lives across requests): each request is answered by the
    handler, which receives only its path parameter. *)
Definition serve_one {S} (st : S) (input_string : string) : string * S :=
  (longest_palindrome input_string, st).

Fixpoint serve {S} (st : S) (reqs : list string) : list string * S :=
  match reqs with
  | [] => ([], st)
  | r :: reqs' =>
      let '(resp, st1) := serve_one st r in
      let '(resps, st2) := serve st1 reqs' in
      (resp :: resps, st2)
  end.

End App.

End Server.

(* ------------------------------------------------------------------ *)
(** ** The two [main] functions                                        *)
(* ------------------------------------------------------------------ *)

Module Mains.

(** How a run of a script ends: its exit status, its standard output and
    error lines, and the number of tasks it ran. *)
Record run := { exit_code : Z; stdout : list string; stderr : list string;
                tasks_run : nat }.

(** [--mode] of [habr.py] *)
Inductive habr_mode := Single | Threads | Pool | ProcessPool.

(** An uncaught exception: traceback on stderr, exit status 1. *)
Definition uncaught (e : exc) : run :=
  {| exit_code := 1; stdout := []; stderr := ["Traceback (most recent call last): ..."];
     tasks_run := 0 |}.

Definition of_pool (n_tasks : Z) (r : res (option (list string * list string)))
    : option run :=
  match r with
  | Err e => Some (uncaught e)
  | Ok None => None
  | Ok (Some (_, out)) =>
      Some {| exit_code := 0; stdout := out; stderr := [];
              tasks_run := length (range 1 n_tasks) |}
  end.

(** [habr.py]'s [main] after argument parsing, for the work function [f] and
    the schedule [sched] of the concurrent strategies ([None]: the run does
    not finish under that schedule). *)
Definition habr_main (f : Z -> string) (mode : habr_mode) (n_tasks pool_size : Z)
    (sched : list nat) : option run :=
  match mode with
  | Single =>
      let '(titles, out) := Habr.single f n_tasks in
      Some {| exit_code := 0; stdout := out; stderr := []; tasks_run := length titles |}
  | Threads =>
      let '(_, out) := Habr.threads f n_tasks sched in
      Some {| exit_code := 0; stdout := out; stderr := [];
              tasks_run := length (Habr.spawned Habr.T_get_article_title n_tasks) |}
  | Pool => of_pool n_tasks (Habr.thread_pool f n_tasks pool_size sched)
  | ProcessPool => of_pool n_tasks (Habr.process_pool f n_tasks pool_size sched)
  end.

(** [--mode] of [matmul.py] *)
Inductive matmul_mode := Thread | Process.

(** [matmul.py]'s [main]: each multiplication prints ["Finished"];
    [raise SystemExit(msg)] prints [msg] on stderr and exits with status 1. *)
Definition matmul_main (njobs : option Z) (mode : matmul_mode) : run :=
  match njobs with
  | None => {| exit_code := 0; stdout := ["Finished"]; stderr := []; tasks_run := 1 |}
  | Some n =>
      if decide (n <= 0)%Z
      then {| exit_code := 1; stdout := []; stderr := ["--njobs must be a positive integer."];
              tasks_run := 0 |}
      else {| exit_code := 0; stdout := replicate (Z.to_nat n) "Finished"; stderr := [];
              tasks_run := Z.to_nat n |}
  end.

End Mains.

(* ------------------------------------------------------------------ *)
(** ** Facts about [matmul]                                             *)
(* ------------------------------------------------------------------ *)

Module MatMulFacts.
Import MatMul.

Section Loops.
Context {R : Type} (zero : R) (add mul : R -> R -> R).

Lemma mac_step_ok A B i j k C Ci c Ai a Bk b :
  C !! i = Some Ci -> Ci !! j = Some c ->
  A !! i = Some Ai -> Ai !! k = Some a ->
  B !! k = Some Bk -> Bk !! j = Some b ->
  mac_step add mul A B i j k C = Ok (<[i := <[j := add c (mul a b)]> Ci]> C).
Proof.
  intros HC Hc HA Ha HB Hb. unfold mac_step, getitem, setitem.
  unfold mbind, res_bind.
  rewrite HC; simpl. rewrite Hc; simpl. rewrite HA; simpl.
  rewrite Ha; simpl. rewrite HB; simpl. rewrite Hb; simpl.
  rewrite decide_True by (eapply lookup_lt_Some; eauto). simpl.
  rewrite decide_True by (eapply lookup_lt_Some; eauto).
  reflexivity.
Qed.

(** The innermost loop accumulates [term] into entry [(i, j)]. *)
Lemma inner_loop A B i j ks : forall C Ci c,
  C !! i = Some Ci -> Ci !! j = Some c ->
  (forall k, k ∈ ks -> exists Ai a Bk b, A !! i = Some Ai /\ Ai !! k = Some a /\
                                       B !! k = Some Bk /\ Bk !! j = Some b) ->
  for_in ks (fun k C => mac_step add mul A B i j k C) C
  = Ok (<[i := <[j := foldl (term zero add mul A B i j) c ks]> Ci]> C).
Proof.
  induction ks as [|k ks IH]; intros C Ci c HC Hc Hks; simpl.
  - rewrite (list_insert_id Ci j c) by done. by rewrite (list_insert_id C i Ci).
  - destruct (Hks k) as (Ai & a & Bk & b & HA & Ha & HB & Hb); [set_solver|].
    rewrite (mac_step_ok A B i j k C Ci c Ai a Bk b) by done. simpl.
    assert (Hlt : i < length C) by (eapply lookup_lt_Some; eauto).
    assert (Hlt' : j < length Ci) by (eapply lookup_lt_Some; eauto).
    rewrite (IH _ (<[j:=add c (mul a b)]> Ci) (add c (mul a b))).
    + assert (Ht : term zero add mul A B i j c k = add c (mul a b)).
      { unfold term. rewrite (nth_lookup_Some A i [] Ai HA).
        rewrite (nth_lookup_Some Ai k zero a Ha), (nth_lookup_Some B k [] Bk HB).
        by rewrite (nth_lookup_Some Bk j zero b Hb). }
      rewrite list_insert_insert_eq, list_insert_insert_eq. simpl. by rewrite Ht.
    + by apply list_lookup_insert_eq.
    + by rewrite list_lookup_insert_eq by done.
    + intros k' Hk'. apply Hks. set_solver.
Qed.

(** The middle loop runs the innermost loop once for every [j] of [js]. *)
Lemma middle_loop A B i ks js : forall C Ci,
  NoDup js -> C !! i = Some Ci ->
  (forall j, j ∈ js -> is_Some (Ci !! j)) ->
  (forall j k, j ∈ js -> k ∈ ks -> exists Ai a Bk b, A !! i = Some Ai /\
       Ai !! k = Some a /\ B !! k = Some Bk /\ Bk !! j = Some b) ->
  exists Ci',
    for_in js (fun j C => for_in ks (fun k C => mac_step add mul A B i j k C) C) C
      = Ok (<[i := Ci']> C) /\
    forall j, Ci' !! j = if decide (j ∈ js)
                         then (fun c => foldl (term zero add mul A B i j) c ks) <$> Ci !! j
                         else Ci !! j.
Proof.
  induction js as [|j js IH]; intros C Ci Hnd HC Hjs Hks; cbn [for_in].
  - exists Ci. split; [by rewrite list_insert_id|].
    intros j. rewrite decide_False; [done|set_solver].
  - apply NoDup_cons in Hnd as [Hj Hnd].
    destruct (Hjs j) as [c Hc]; [set_solver|].
    rewrite (inner_loop A B i j ks C Ci c) by (done || (intros; apply Hks; set_solver)).
    simpl.
    set (v := foldl (term zero add mul A B i j) c ks).
    assert (Hlt : i < length C) by (eapply lookup_lt_Some; eauto).
    destruct (IH (<[i := <[j := v]> Ci]> C) (<[j := v]> Ci)) as (Ci' & Hrun & Hlook).
    + done.
    + by apply list_lookup_insert_eq.
    + intros j' Hj'. rewrite list_lookup_insert_ne by set_solver. apply Hjs. set_solver.
    + intros j' k Hj' Hk. apply Hks; set_solver.
    + exists Ci'. split.
      * by rewrite Hrun, list_insert_insert_eq.
      * intros j'. rewrite Hlook. destruct (decide (j' = j)) as [->|Hne].
        -- rewrite decide_False by done. rewrite decide_True by set_solver.
           rewrite list_lookup_insert_eq by (eapply lookup_lt_Some; eauto).
           by rewrite Hc.
        -- rewrite list_lookup_insert_ne by congruence.
           destruct (decide (j' ∈ js)); [rewrite decide_True by set_solver|
                                          rewrite decide_False by set_solver]; done.
Qed.

(** A row of zeros of length [n] after the middle loop over [seq 0 n]. *)
Lemma middle_loop_zero_row A B i ks n C :
  C !! i = Some (replicate n zero) ->
  (forall j k, j < n -> k ∈ ks -> exists Ai a Bk b, A !! i = Some Ai /\
       Ai !! k = Some a /\ B !! k = Some Bk /\ Bk !! j = Some b) ->
  for_in (seq 0 n) (fun j C => for_in ks (fun k C => mac_step add mul A B i j k C) C) C
  = Ok (<[i := map (fun j => foldl (term zero add mul A B i j) zero ks) (seq 0 n)]> C).
Proof.
  intros HC Hks.
  destruct (middle_loop A B i ks (seq 0 n) C (replicate n zero)) as (Ci' & Hrun & Hlook).
  - apply NoDup_seq.
  - done.
  - intros j Hj. apply lookup_lt_is_Some. rewrite length_replicate.
    apply elem_of_seq in Hj. lia.
  - intros j k Hj Hk. apply Hks; [apply elem_of_seq in Hj; lia|done].
  - rewrite Hrun. do 3 f_equal. apply list_eq. intros j. rewrite Hlook.
    destruct (decide (j ∈ seq 0 n)) as [Hj|Hj];
      apply elem_of_seq in Hj || rewrite elem_of_seq in Hj.
    + rewrite lookup_replicate_2 by lia. rewrite list_lookup_fmap.
      rewrite lookup_seq_lt by lia. done.
    + rewrite (proj1 (lookup_replicate_None _ _ _)) by lia. rewrite list_lookup_fmap.
      rewrite lookup_seq_ge by lia. done.
Qed.

(** The outer loop turns every zero row [i] of [is] into its row of
    accumulations. *)
Lemma outer_loop (A B : list (list R)) n ks is : forall C,
  NoDup is -> (forall i, i ∈ is -> C !! i = Some (replicate n zero)) ->
  (forall i j k, i ∈ is -> j < n -> k ∈ ks -> exists Ai a Bk b, A !! i = Some Ai /\
       Ai !! k = Some a /\ B !! k = Some Bk /\ Bk !! j = Some b) ->
  exists C',
    for_in is (fun i C => for_in (seq 0 n) (fun j C =>
                 for_in ks (fun k C => mac_step add mul A B i j k C) C) C) C = Ok C' /\
    forall i, C' !! i = if decide (i ∈ is)
                        then Some (map (fun j => foldl (term zero add mul A B i j) zero ks)
                                       (seq 0 n))
                        else C !! i.
Proof.
  induction is as [|i is IH]; intros C Hnd HC Hks; cbn [for_in].
  - exists C. split; [done|]. intros i. rewrite decide_False; [done|set_solver].
  - apply NoDup_cons in Hnd as [Hi Hnd].
    rewrite (middle_loop_zero_row A B i ks n C);
      [| apply HC; set_solver | intros; apply Hks; auto; set_solver].
    cbn [mbind res_bind].
    assert (Hlt : i < length C) by (eapply lookup_lt_Some; apply HC; set_solver).
    destruct (IH (<[i := map (fun j => foldl (term zero add mul A B i j) zero ks)
                             (seq 0 n)]> C)) as (C' & Hrun & Hlook).
    + done.
    + intros i' Hi'. rewrite list_lookup_insert_ne by set_solver. apply HC. set_solver.
    + intros i' j k Hi' Hj Hk. apply Hks; auto. set_solver.
    + exists C'. split; [done|].
      intros i'. rewrite Hlook. destruct (decide (i' = i)) as [->|Hne].
      * rewrite decide_False by done. rewrite decide_True by set_solver.
        by rewrite list_lookup_insert_eq.
      * rewrite list_lookup_insert_ne by congruence.
        destruct (decide (i' ∈ is)); [rewrite decide_True by set_solver|
                                      rewrite decide_False by set_solver]; done.
Qed.

Lemma in_range_lookups (A B : list (list R)) :
  in_range A B ->
  forall i j k, i < length A -> j < length (nth 0 B []) -> k < length (nth 0 A []) ->
  exists Ai a Bk b, A !! i = Some Ai /\ Ai !! k = Some a /\
                    B !! k = Some Bk /\ Bk !! j = Some b.
Proof.
  intros (HA & HB & HArows & HBlen & HBrows) i j k Hi Hj Hk.
  destruct (lookup_lt_is_Some_2 A i Hi) as [Ai HAi].
  assert (HkB : k < length B) by lia.
  destruct (lookup_lt_is_Some_2 B k HkB) as [Bk HBk].
  pose proof (Forall_lookup_1 _ A i Ai HArows HAi) as HlenAi.
  pose proof (Forall_lookup_1 _ B k Bk HBrows HBk) as HlenBk.
  destruct (lookup_lt_is_Some_2 Ai k ltac:(simpl in *; lia)) as [a Ha].
  destruct (lookup_lt_is_Some_2 Bk j ltac:(simpl in *; lia)) as [b Hb].
  exists Ai, a, Bk, b. done.
Qed.

(** On in-range shapes, [matmul] returns [product]. *)
Lemma matmul_in_range (A B : list (list R)) :
  in_range A B -> matmul zero add mul A B = Ok (product zero add mul A B).
Proof.
  intros Hr. pose proof (in_range_lookups A B Hr) as Hlk.
  destruct Hr as (HA & HB & _).
  destruct A as [|A0 A']; [done|]. destruct B as [|B0 B']; [done|].
  unfold matmul, product. cbn [getitem lookup list_lookup mbind res_bind nth].
  set (m := length (A0 :: A')). set (l := length A0). set (n := length B0).
  destruct (outer_loop (A0 :: A') (B0 :: B') n (seq 0 l) (seq 0 m)
              (replicate m (replicate n zero))) as (C' & Hrun & Hlook).
  - apply NoDup_seq.
  - intros i Hi. apply elem_of_seq in Hi. apply lookup_replicate_2. lia.
  - intros i j k Hi Hj Hk. apply elem_of_seq in Hi, Hk. apply Hlk; simpl in *; lia.
  - rewrite Hrun. f_equal. apply list_eq. intros i. rewrite Hlook.
    rewrite list_lookup_fmap.
    destruct (decide (i ∈ seq 0 m)) as [Hi|Hi];
      [apply elem_of_seq in Hi | rewrite elem_of_seq in Hi].
    + rewrite lookup_seq_lt by lia. done.
    + rewrite lookup_seq_ge by lia.
      rewrite (proj1 (lookup_replicate_None _ _ _)) by lia. done.
Qed.

(** Entries of [product]. *)
Lemma product_entry (A B : list (list R)) i j :
  i < length A -> j < length (nth 0 B []) ->
  product zero add mul A B !! i ≫= (fun row => row !! j)
  = Some (dot zero add mul A B i j (length (nth 0 A []))).
Proof.
  intros Hi Hj. unfold product. rewrite list_lookup_fmap, lookup_seq_lt by done.
  simpl. rewrite list_lookup_fmap, lookup_seq_lt by done. done.
Qed.

Lemma product_shape (A B : list (list R)) :
  shape (product zero add mul A B) (length A) (length (nth 0 B [])).
Proof.
  unfold shape, product. split.
  - by rewrite length_fmap, length_seq.
  - apply Forall_fmap, Forall_forall. intros i _. simpl.
    by rewrite length_fmap, length_seq.
Qed.

Lemma shape_in_range (A B : list (list R)) m l n :
  shape A m l -> shape B l n -> 1 <= m -> 1 <= l -> in_range A B.
Proof.
  intros [HmA HrA] [HlB HrB] Hm Hl.
  destruct A as [|A0 A']; [simpl in *; lia|]. destruct B as [|B0 B']; [simpl in *; lia|].
  inversion HrA as [|? ? HA0 _]; subst. inversion HrB as [|? ? HB0 _]; subst.
  split; [done|]. split; [done|]. simpl.
  simpl in *. split; [|split]; [| lia |].
  - eapply Forall_impl; [exact HrA|]. simpl. lia.
  - eapply Forall_impl; [exact HrB|]. simpl. lia.
Qed.

Lemma row_as_map (row : list R) n :
  length row = n -> row = map (fun j => nth j row zero) (seq 0 n).
Proof.
  intros Hn. apply list_eq. intros j. rewrite list_lookup_fmap.
  destruct (decide (j < n)).
  - rewrite lookup_seq_lt by done. simpl.
    destruct (lookup_lt_is_Some_2 row j ltac:(lia)) as [x Hx].
    by rewrite Hx, (nth_lookup_Some row j zero x Hx).
  - rewrite lookup_seq_ge by lia. apply lookup_ge_None_2. lia.
Qed.

(** A zero matrix has zero entries. *)
Lemma nth_zeros r c i k : i < r -> k < c -> nth k (nth i (zeros zero r c) []) zero = zero.
Proof.
  intros Hi Hk. unfold zeros.
  rewrite (nth_lookup_Some _ i [] (replicate c zero)) by (by apply lookup_replicate_2).
  by rewrite (nth_lookup_Some _ k zero zero) by (by apply lookup_replicate_2).
Qed.

Lemma shape_nth0 (M : list (list R)) r c :
  shape M r c -> 1 <= r -> length (nth 0 M []) = c.
Proof.
  intros [Hr Hc] H1. destruct M as [|M0 M']; [simpl in *; lia|].
  simpl. by inversion Hc.
Qed.

(** [product A B] is determined by its entries. *)
Lemma product_ext (A B M : list (list R)) :
  shape M (length A) (length (nth 0 B [])) ->
  (forall i j, i < length A -> j < length (nth 0 B []) ->
     nth j (nth i M []) zero = dot zero add mul A B i j (length (nth 0 A []))) ->
  product zero add mul A B = M.
Proof.
  intros [HM Hrows] Hent. apply list_eq. intros i. unfold product.
  rewrite list_lookup_fmap. destruct (decide (i < length A)) as [Hi|Hi].
  - rewrite lookup_seq_lt by done. simpl.
    destruct (lookup_lt_is_Some_2 M i ltac:(lia)) as [row Hrow]. rewrite Hrow.
    pose proof (Forall_lookup_1 _ M i row Hrows Hrow) as Hlen. simpl in Hlen.
    rewrite (row_as_map row (length (nth 0 B []))) by done. f_equal.
    apply map_ext_in. intros j Hj. apply in_seq in Hj.
    rewrite <- (Hent i j) by lia. by rewrite (nth_lookup_Some M i [] row Hrow).
  - rewrite lookup_seq_ge by lia. symmetry. apply lookup_ge_None_2. lia.
Qed.

Lemma zeros_shape r c : shape (zeros zero r c) r c.
Proof.
  unfold shape, zeros. rewrite length_replicate. split; [done|].
  apply Forall_replicate. apply length_replicate.
Qed.

(** A loop fails as soon as one of its iterations always fails. *)
Lemma for_in_fails {S} (xs : list nat) (body : nat -> S -> res S) x :
  x ∈ xs -> (forall s, exists e, body x s = Err e) ->
  forall s, exists e, for_in xs body s = Err e.
Proof.
  induction xs as [|y xs IH]; intros Hx Hfail s; [set_solver|].
  cbn [for_in mbind res_bind]. destruct (body y s) as [s'|e] eqn:Hy.
  - destruct (decide (x = y)) as [->|Hne].
    + destruct (Hfail s) as [e He]. congruence.
    + apply IH; [set_solver|done].
  - by exists e.
Qed.

(** A loop whose iterations change nothing. *)
Lemma for_in_noop {S} (xs : list nat) (body : nat -> S -> res S) s :
  (forall x s, body x s = Ok s) -> for_in xs body s = Ok s.
Proof.
  intros Hb. revert s. induction xs as [|x xs IH]; intros s; [done|].
  cbn [for_in mbind res_bind]. rewrite Hb. apply IH.
Qed.

(** A loop raises only what its iterations raise. *)
Lemma for_in_index {S} (xs : list nat) (body : nat -> S -> res S) :
  (forall y s e, body y s = Err e -> e = IndexError) ->
  forall s e, for_in xs body s = Err e -> e = IndexError.
Proof.
  intros Hb. induction xs as [|y xs IH]; intros s e; cbn [for_in]; [done|].
  unfold mbind, res_bind. destruct (body y s) eqn:Hy; [apply IH|].
  intros [= <-]. eauto.
Qed.

Lemma mac_step_index (A B : list (list R)) i j k C e :
  mac_step add mul A B i j k C = Err e -> e = IndexError.
Proof.
  unfold mac_step, getitem, setitem, mbind, res_bind.
  repeat case_match; congruence.
Qed.

Lemma mac_step_past_B (A B : list (list R)) i j C :
  exists e, mac_step add mul A B i j (length B) C = Err e.
Proof.
  unfold mac_step, getitem, mbind, res_bind.
  rewrite (lookup_ge_None_2 B (length B)) by done.
  repeat case_match; eauto.
Qed.

Lemma matmul_index_only (A B : list (list R)) e :
  matmul zero add mul A B = Err e -> e = IndexError.
Proof.
  unfold matmul, getitem, mbind, res_bind. repeat case_match; try congruence.
  apply for_in_index. intros i C1. apply for_in_index. intros j C2.
  apply for_in_index. intros k C3 e'. apply mac_step_index.
Qed.

(** [len(B) < len(A[0])] with [len(B[0]) > 0] reaches [B[len(B)]]. *)
Lemma matmul_short_B (A B : list (list R)) :
  A <> [] -> B <> [] -> length B < length (nth 0 A []) -> 0 < length (nth 0 B []) ->
  matmul zero add mul A B = Err IndexError.
Proof.
  intros HA HB Hl Hn.
  destruct (matmul zero add mul A B) as [C|e] eqn:Hm.
  - exfalso. revert Hm.
    destruct A as [|A0 A']; [done|]. destruct B as [|B0 B']; [done|].
    unfold matmul. cbn [getitem lookup list_lookup mbind res_bind].
    simpl in Hl, Hn.
    destruct (for_in_fails (seq 0 (length (A0 :: A')))
      (fun i C => for_in (seq 0 (length B0)) (fun j C =>
         for_in (seq 0 (length A0)) (fun k C => mac_step add mul (A0 :: A') (B0 :: B') i j k C)
         C) C) 0) with (s := replicate (length (A0 :: A')) (replicate (length B0) zero))
      as [e He].
    + apply elem_of_seq. simpl. lia.
    + intros C1. apply (for_in_fails _ _ 0); [apply elem_of_seq; lia|].
      intros C2. apply (for_in_fails _ _ (length (B0 :: B'))); [apply elem_of_seq; simpl; lia|].
      intros C3. apply mac_step_past_B.
    + rewrite He. done.
  - f_equal. by apply (matmul_index_only A B).
Qed.

Lemma matmul_empty_A (B : list (list R)) : matmul zero add mul [] B = Err IndexError.
Proof. done. Qed.

Lemma matmul_empty_B (A : list (list R)) : matmul zero add mul A [] = Err IndexError.
Proof. by destruct A. Qed.

(** With [len(B[0]) = 0] no entry is computed and no row of [B] is read. *)
Lemma matmul_no_columns (A B : list (list R)) :
  A <> [] -> B <> [] -> length (nth 0 B []) = 0 ->
  matmul zero add mul A B = Ok (replicate (length A) []).
Proof.
  intros HA HB Hn. destruct A as [|A0 A']; [done|]. destruct B as [|B0 B']; [done|].
  simpl in Hn. destruct B0; [|done].
  unfold matmul. cbn [getitem lookup list_lookup mbind res_bind].
  rewrite for_in_noop; [done|]. intros i C. reflexivity.
Qed.

Lemma nth_identity (one : R) l i k : i < l -> k < l ->
  nth k (nth i (identity zero one l) []) zero = if decide (i = k) then one else zero.
Proof.
  intros Hi Hk. unfold identity.
  rewrite (nth_lookup_Some _ i [] _)
    by (rewrite list_lookup_fmap, lookup_seq_lt by done; reflexivity).
  rewrite (nth_lookup_Some _ k zero _)
    by (rewrite list_lookup_fmap, lookup_seq_lt by done; reflexivity).
  done.
Qed.

Lemma identity_shape (one : R) l : shape (identity zero one l) l l.
Proof.
  unfold shape, identity. rewrite length_fmap, length_seq. split; [done|].
  apply Forall_fmap, Forall_forall. intros i _. simpl. by rewrite length_fmap, length_seq.
Qed.

(** Every entry read through [nth] with default [zero] satisfies [P] when
    every entry of [M] and [zero] do. *)
Lemma nth_nth_Forall (P : R -> Prop) (M : list (list R)) i k :
  Forall (Forall P) M -> P zero -> P (nth k (nth i M []) zero).
Proof.
  intros HM H0. destruct (M !! i) as [row|] eqn:Hrow.
  - rewrite (nth_lookup_Some M i [] row Hrow).
    pose proof (Forall_lookup_1 _ M i row HM Hrow) as Hr.
    destruct (row !! k) as [x|] eqn:Hx.
    + rewrite (nth_lookup_Some row k zero x Hx). exact (Forall_lookup_1 _ row k x Hr Hx).
    + rewrite nth_overflow; [done|]. apply lookup_ge_None_1 in Hx. lia.
  - rewrite (nth_overflow M); [|apply lookup_ge_None_1 in Hrow; lia].
    by destruct k.
Qed.

End Loops.

(** [==] on lists of a mapped list with the list itself. *)
Lemma list_eqb_map {A} (eqb : A -> A -> bool) (f : A -> A) (xs : list A) :
  Forall (fun x => eqb (f x) x = true) xs -> list_eqb eqb (map f xs) xs = true.
Proof.
  induction 1 as [|x xs Hx _ IH]; [done|]. simpl. by rewrite Hx, IH.
Qed.

(** ** IEEE binary64 arithmetic on finite operands

    The facts below are read off the specification of the primitive float
    operations ([mul_spec], [add_spec], [eqb_spec]) and the definitions of
    [SFmul], [SFadd] and [SFeqb]. *)

Lemma one_SF : Prim2SF 1%float = S754_finite false 4503599627370496 (-52).
Proof. vm_compute. reflexivity. Qed.

Lemma zero_SF : Prim2SF 0%float = S754_zero false.
Proof. vm_compute. reflexivity. Qed.

Lemma digits2_iter_xO n p :
  Zpos (digits2_pos (Nat.iter n xO p)) = (Zpos (digits2_pos p) + Z.of_nat n)%Z.
Proof.
  induction n as [|n IH]; [simpl; lia|].
  change (Nat.iter (S n) xO p) with (xO (Nat.iter n xO p)). simpl digits2_pos.
  rewrite Pos2Z.inj_succ, IH. lia.
Qed.

(** A finite float is a signed zero or a finite non-zero binary number. *)
Lemma finite_cases x : is_finite x = true ->
  (exists s, Prim2SF x = S754_zero s) \/ (exists s m e, Prim2SF x = S754_finite s m e).
Proof.
  unfold is_finite, is_nan, is_infinity. rewrite !FloatAxioms.eqb_spec, FloatAxioms.abs_spec.
  destruct (Prim2SF x) as [s|s| |s m e] eqn:E; eauto;
    [destruct s|]; vm_compute; discriminate.
Qed.

(** [1.0 * x] is [x], bit for bit, for every float [x]. *)
Lemma float_mul_one_l x : (1 * x)%float = x.
Proof.
  apply Prim2SF_inj. rewrite FloatAxioms.mul_spec, one_SF.
  pose proof (Prim2SF_valid x) as Hv.
  destruct (Prim2SF x) as [s|s| |s m e] eqn:E; try (destruct s; reflexivity); [reflexivity|].
  unfold valid_binary, bounded, canonical_mantissa in Hv.
  apply andb_prop in Hv as [Hc He]. apply Z.eqb_eq in Hc. apply Z.leb_le in He.
  unfold SF64mul, SFmul, binary_round_aux. cbn [xorb].
  change (4503599627370496 * m)%positive with (Nat.iter 52 xO m).
  unfold shr_fexp.
  assert (Hs : (fexp prec emax (Zdigits2 (Zpos (Nat.iter 52 xO m)) + (-52 + e))
                - (-52 + e) = 52)%Z).
  { unfold Zdigits2. rewrite digits2_iter_xO.
    replace (Zpos (digits2_pos m) + Z.of_nat 52 + (-52 + e))%Z
      with (Zpos (digits2_pos m) + e)%Z by lia.
    rewrite Hc. lia. }
  rewrite Hs. unfold SpecFloat.shr.
  change (SpecFloat.iter_pos shr_1 52 (shr_record_of_loc (Zpos (Nat.iter 52 xO m)) loc_Exact))
    with {| shr_m := Zpos m; shr_r := false; shr_s := false |}.
  replace (-52 + e + 52)%Z with e by lia.
  cbn [loc_of_shr_record shr_r shr_s shr_m round_nearest_even].
  assert (Hs0 : (fexp prec emax (Zdigits2 (Zpos m) + e) - e = 0)%Z).
  { unfold Zdigits2. rewrite Hc. lia. }
  rewrite Hs0. cbn [shr_m].
  rewrite (proj2 (Z.leb_le _ _) He). reflexivity.
Qed.

(** [0.0 * b] and [a * 0.0] are signed zeros for finite [a], [b]. *)
Lemma float_mul_zero_l b : is_finite b = true -> exists s, Prim2SF (0 * b)%float = S754_zero s.
Proof.
  intros Hb. rewrite FloatAxioms.mul_spec, zero_SF.
  destruct (finite_cases b Hb) as [[s E]|(s & m & e & E)]; rewrite E; eexists; reflexivity.
Qed.

Lemma float_mul_zero_r a : is_finite a = true -> exists s, Prim2SF (a * 0)%float = S754_zero s.
Proof.
  intros Ha. rewrite FloatAxioms.mul_spec, zero_SF.
  destruct (finite_cases a Ha) as [[s E]|(s & m & e & E)]; rewrite E; eexists; reflexivity.
Qed.

(** [+0.0] and non-zero finite floats absorb a signed zero added on the right. *)
Lemma float_add_zero_r r z :
  (r = 0%float \/ exists s m e, Prim2SF r = S754_finite s m e) ->
  (exists s, Prim2SF z = S754_zero s) -> (r + z)%float = r.
Proof.
  intros [->|(s & m & e & E)] [s' Ez]; apply Prim2SF_inj; rewrite FloatAxioms.add_spec, Ez.
  - rewrite zero_SF. by destruct s'.
  - rewrite E. reflexivity.
Qed.

(** [0.0 + b] is [+0.0] or the non-zero finite [b]. *)
Lemma float_zero_add b : is_finite b = true ->
  (0 + b)%float = 0%float \/ exists s m e, Prim2SF (0 + b)%float = S754_finite s m e.
Proof.
  intros Hb. destruct (finite_cases b Hb) as [[s E]|(s & m & e & E)].
  - left. apply Prim2SF_inj. rewrite FloatAxioms.add_spec, E, zero_SF. by destruct s.
  - right. exists s, m, e. rewrite FloatAxioms.add_spec, E, zero_SF. reflexivity.
Qed.

(** [0.0 + b == b] for finite [b]. *)
Lemma float_zero_add_eqb b : is_finite b = true -> ((0 + b) =? b)%float = true.
Proof.
  intros Hb. rewrite FloatAxioms.eqb_spec, FloatAxioms.add_spec, zero_SF.
  destruct (finite_cases b Hb) as [[s E]|(s & m & e & E)]; rewrite E.
  - by destruct s.
  - change (SF64add (S754_zero false) (S754_finite s m e)) with (S754_finite s m e).
    unfold SFeqb, SFcompare. destruct s; rewrite Z.compare_refl, Pos.compare_cont_refl; reflexivity.
Qed.

Lemma finite_zero : is_finite 0%float = true.
Proof. reflexivity. Qed.

(** One entry of [I * B] on floats: [0.0 + 1.0*B[i][j]] and signed zeros. *)
Lemma fdot_identity_prefix (B : list (list float)) l i j k0 :
  Forall (Forall (fun x => is_finite x = true)) B -> i < l -> k0 <= l ->
  foldl (term 0%float PrimFloat.add PrimFloat.mul (identity 0%float 1%float l) B i j)
    0%float (seq 0 k0)
  = if decide (i < k0) then (0 + nth j (nth i B []) 0)%float else 0%float.
Proof.
  intros HB Hi. induction k0 as [|k0 IH]; intros Hk0; [done|].
  rewrite seq_S, foldl_app, IH by lia. simpl. unfold term.
  rewrite nth_identity by lia.
  destruct (decide (i = k0)) as [->|Hne].
  - rewrite decide_False by lia. rewrite decide_True by lia.
    by rewrite float_mul_one_l.
  - pose proof (float_mul_zero_l (nth j (nth k0 B []) 0%float)
      (nth_nth_Forall 0%float _ B k0 j HB finite_zero)) as Hz.
    destruct (decide (i < k0)); [rewrite decide_True by lia|rewrite decide_False by lia].
    + apply float_add_zero_r; [|done].
      apply float_zero_add, (nth_nth_Forall 0%float _ B i j HB finite_zero).
    + apply float_add_zero_r; [by left|done].
Qed.

(** The entries of a float zero factor product stay [+0.0]. *)
Lemma fdot_zero_left_prefix (B : list (list float)) m l i j k0 :
  Forall (Forall (fun x => is_finite x = true)) B -> i < m -> k0 <= l ->
  foldl (term 0%float PrimFloat.add PrimFloat.mul (zeros 0%float m l) B i j)
    0%float (seq 0 k0) = 0%float.
Proof.
  intros HB Hi. induction k0 as [|k0 IH]; intros Hk0; [done|].
  rewrite seq_S, foldl_app, IH by lia. simpl. unfold term.
  rewrite nth_zeros by lia. apply float_add_zero_r; [by left|].
  apply float_mul_zero_l, (nth_nth_Forall 0%float _ B k0 j HB finite_zero).
Qed.

Lemma fdot_zero_right_prefix (A : list (list float)) l n i j k0 :
  Forall (Forall (fun x => is_finite x = true)) A -> j < n -> k0 <= l ->
  foldl (term 0%float PrimFloat.add PrimFloat.mul A (zeros 0%float l n) i j)
    0%float (seq 0 k0) = 0%float.
Proof.
  intros HA Hj. induction k0 as [|k0 IH]; intros Hk0; [done|].
  rewrite seq_S, foldl_app, IH by lia. simpl. unfold term.
  rewrite nth_zeros by lia. apply float_add_zero_r; [by left|].
  apply float_mul_zero_r, (nth_nth_Forall 0%float _ A i k0 HA finite_zero).
Qed.

(** On finite floats, [I * B] is [B] with every [-0.0] turned into [0.0]. *)
Lemma fmatmul_identity_left (B : list (list float)) l n :
  shape B l n -> 1 <= l -> Forall (Forall (fun x => is_finite x = true)) B ->
  fmatmul (identity 0%float 1%float l) B = Ok (map (map (fun b => 0 + b)%float) B).
Proof.
  intros HB Hl Hfin. pose proof (identity_shape 0%float 1%float l) as HI.
  unfold fmatmul. rewrite matmul_in_range by (eapply shape_in_range; eauto). f_equal.
  destruct HB as [HBl HBr].
  apply product_ext.
  - rewrite (shape_nth0 B l n) by done. destruct HI as [-> _].
    split; [by rewrite length_map|].
    apply Forall_map. eapply Forall_impl; [exact HBr|]. intros row Hrow. by rewrite length_map.
  - intros i j Hi Hj. destruct HI as [HIl _]. rewrite HIl in Hi.
    rewrite (shape_nth0 B l n) in Hj by done.
    rewrite (shape_nth0 (identity 0%float 1%float l) l l) by (apply identity_shape || done).
    unfold dot. rewrite fdot_identity_prefix by (done || lia).
    rewrite decide_True by lia.
    destruct (lookup_lt_is_Some_2 B i ltac:(lia)) as [row Hrow].
    pose proof (Forall_lookup_1 _ B i row HBr Hrow) as Hlen. simpl in Hlen.
    destruct (lookup_lt_is_Some_2 row j ltac:(lia)) as [b Hb].
    rewrite (nth_lookup_Some B i [] row Hrow), (nth_lookup_Some row j 0%float b Hb).
    rewrite (nth_lookup_Some _ i [] (map (fun b => 0 + b)%float row))
      by (by rewrite list_lookup_fmap, Hrow).
    by rewrite (nth_lookup_Some _ j 0%float (0 + b)%float)
      by (by rewrite list_lookup_fmap, Hb).
Qed.

Lemma fmatmul_identity_eq (B : list (list float)) :
  Forall (Forall (fun x => is_finite x = true)) B ->
  float_matrix_eq (map (map (fun b => 0 + b)%float) B) B = true.
Proof.
  intros Hfin. unfold float_matrix_eq. apply list_eqb_map.
  eapply Forall_impl; [exact Hfin|]. intros row Hrow. apply list_eqb_map.
  eapply Forall_impl; [exact Hrow|]. intros b Hb. by apply float_zero_add_eqb.
Qed.

(** On finite floats, a zero factor gives the [+0.0] zero matrix. *)
Lemma fmatmul_zeros_left (B : list (list float)) m l n :
  shape B l n -> 1 <= m -> 1 <= l -> Forall (Forall (fun x => is_finite x = true)) B ->
  fmatmul (zeros 0%float m l) B = Ok (zeros 0%float m n).
Proof.
  intros HB Hm Hl Hfin. pose proof (zeros_shape 0%float m l) as HZ.
  unfold fmatmul. rewrite matmul_in_range by (eapply shape_in_range; eauto). f_equal.
  apply product_ext.
  - rewrite (shape_nth0 B l n) by done. destruct HZ as [-> _]. apply zeros_shape.
  - intros i j Hi Hj. destruct HZ as [HZm _]. rewrite HZm in Hi.
    rewrite (shape_nth0 B l n) in Hj by done.
    rewrite (shape_nth0 (zeros 0%float m l) m l) by (apply zeros_shape || done).
    rewrite nth_zeros by lia. unfold dot. by rewrite (fdot_zero_left_prefix B m l) by (done || lia).
Qed.

Lemma fmatmul_zeros_right (A : list (list float)) m l n :
  shape A m l -> 1 <= m -> 1 <= l -> Forall (Forall (fun x => is_finite x = true)) A ->
  fmatmul A (zeros 0%float l n) = Ok (zeros 0%float m n).
Proof.
  intros HA Hm Hl Hfin. pose proof (zeros_shape 0%float l n) as HZ.
  unfold fmatmul. rewrite matmul_in_range by (eapply shape_in_range; eauto). f_equal.
  apply product_ext.
  - rewrite (shape_nth0 (zeros 0%float l n) l n) by (apply zeros_shape || done).
    rewrite (proj1 HA). apply zeros_shape.
  - intros i j Hi Hj. pose proof (proj1 HA) as HAm. rewrite HAm in Hi.
    rewrite (shape_nth0 (zeros 0%float l n) l n) in Hj by (apply zeros_shape || done).
    rewrite (shape_nth0 A m l) by done.
    rewrite nth_zeros by lia. unfold dot. by rewrite (fdot_zero_right_prefix A l n) by (done || lia).
Qed.

(** C5 (amended). For a non-empty [m x l] matrix [A] and an [l x n] matrix [B],
    [matmul(A, B)] returns an [m x n] matrix whose entry [(i, j)] is the
    left-to-right accumulation [((0.0 + A[i][0]*B[0][j]) + ...) + A[i][l-1]*B[l-1][j]],
    whatever the scalar arithmetic. On IEEE binary64 floats with every entry
    of [B] finite, the identity times [B] returns [B] with each entry [b]
    replaced by [0.0 + b] (so [-0.0] becomes [0.0] and nothing else changes),
    which is [==] to [B]; a zero left factor gives the [m x n] matrix of
    [0.0]; and so does a zero right factor when every entry of [A] is finite. *)
Theorem matmul_entries_and_float_units :
  (forall (R : Type) (zero : R) (add mul : R -> R -> R) (A B : list (list R)) m l n,
     shape A m l -> shape B l n -> 1 <= m -> 1 <= l ->
     exists C, matmul zero add mul A B = Ok C /\ shape C m n /\
       forall i j, i < m -> j < n ->
         C !! i ≫= (fun row => row !! j) = Some (dot zero add mul A B i j l)) /\
  (forall (B : list (list float)) m l n,
     shape B l n -> 1 <= m -> 1 <= l -> Forall (Forall (fun x => is_finite x = true)) B ->
     fmatmul (identity 0%float 1%float l) B = Ok (map (map (fun b => 0 + b)%float) B) /\
     float_matrix_eq (map (map (fun b => 0 + b)%float) B) B = true /\
     fmatmul (zeros 0%float m l) B = Ok (zeros 0%float m n)) /\
  (forall (A : list (list float)) m l n,
     shape A m l -> 1 <= m -> 1 <= l -> Forall (Forall (fun x => is_finite x = true)) A ->
     fmatmul A (zeros 0%float l n) = Ok (zeros 0%float m n)).
Proof.
  split; [|split].
  - intros R zero add mul A B m l n HA HB Hm Hl.
    exists (product zero add mul A B).
    rewrite matmul_in_range by (eapply shape_in_range; eauto).
    pose proof (shape_nth0 A m l HA Hm) as HlA.
    pose proof (shape_nth0 B l n HB Hl) as HnB.
    destruct HA as [HmA _].
    split; [done|]. split.
    + pose proof (product_shape zero add mul A B) as Hs. by rewrite HmA, HnB in Hs.
    + intros i j Hi Hj. rewrite product_entry by lia. by rewrite HlA.
  - intros B m l n HB Hm Hl Hfin. split; [|split].
    + by apply (fmatmul_identity_left B l n).
    + by apply fmatmul_identity_eq.
    + by apply fmatmul_zeros_left.
  - intros A m l n HA Hm Hl Hfin. by apply fmatmul_zeros_right.
Qed.

(** The theorem at concrete float matrices: [I2 * [[2.0, -0.0], [4.0, 0.5]]]
    is [[2.0, 0.0], [4.0, 0.5]], [==] to the right factor, and [0 * B = 0]. *)
Lemma matmul_entries_and_float_units_witness :
  fmatmul (identity 0%float 1%float 2) [[2%float; (-0)%float]; [4%float; 0.5%float]]
    = Ok [[2%float; 0%float]; [4%float; 0.5%float]] /\
  float_matrix_eq [[2%float; 0%float]; [4%float; 0.5%float]]
    [[2%float; (-0)%float]; [4%float; 0.5%float]] = true /\
  fmatmul (zeros 0%float 1 2) [[2%float; (-0)%float]; [4%float; 0.5%float]]
    = Ok (zeros 0%float 1 2).
Proof.
  exact (proj1 (proj2 matmul_entries_and_float_units)
           [[2%float; (-0)%float]; [4%float; 0.5%float]] 1 2 2
           ltac:(split; [reflexivity|repeat constructor]) ltac:(lia) ltac:(lia)
           ltac:(repeat constructor)).
Defined.

(** C5 fails on IEEE floats: [I2 * [[inf, 0.0], [0.0, 1.0]]] gives
    [[inf, 0.0], [nan, 1.0]] ([0.0 * inf] is [nan]), which is not [==] the
    right factor. *)
Lemma matmul_identity_inf_counterexample :
  exists C,
    fmatmul (identity 0%float 1%float 2) [[infinity; 0%float]; [0%float; 1%float]] = Ok C /\
    float_matrix_eq C [[infinity; 0%float]; [0%float; 1%float]] = false.
Proof.
  exists [[infinity; 0%float]; [nan; 1%float]]. split; vm_compute; reflexivity.
Qed.

(** C9 (amended). [matmul] reads only in-range indices when [A] and [B] are
    non-empty, the rows of [A] are at least [len(A[0])] long, [B] has at
    least [len(A[0])] rows and the rows of [B] are at least [len(B[0])]
    long; it checks no dimensions: an empty [A] or [B] raises [IndexError],
    [len(B) < len(A[0])] raises [IndexError] when [len(B[0]) > 0], and when
    [len(B[0]) = 0] it returns [len(A)] empty rows without reading [B]
    further. *)
Theorem matmul_index_safety :
  forall (R : Type) (zero : R) (add mul : R -> R -> R) (A B : list (list R)),
    (in_range A B -> matmul zero add mul A B = Ok (product zero add mul A B)) /\
    matmul zero add mul [] B = Err IndexError /\
    matmul zero add mul A [] = Err IndexError /\
    (A <> [] -> B <> [] -> length B < length (nth 0 A []) -> 0 < length (nth 0 B []) ->
     matmul zero add mul A B = Err IndexError) /\
    (A <> [] -> B <> [] -> length (nth 0 B []) = 0 ->
     matmul zero add mul A B = Ok (replicate (length A) [])).
Proof.
  intros R zero add mul A B. split; [|split; [|split; [|split]]].
  - apply matmul_in_range.
  - apply matmul_empty_A.
  - apply matmul_empty_B.
  - apply matmul_short_B.
  - apply matmul_no_columns.
Qed.

Lemma matmul_index_safety_witness :
  fmatmul [[1%float; 2%float]] [[3%float]] = Err IndexError.
Proof.
  apply (proj1 (proj2 (proj2 (proj2 (matmul_index_safety float 0%float PrimFloat.add
           PrimFloat.mul [[1%float; 2%float]] [[3%float]]))))); simpl; (done || lia).
Defined.

(** C9 fails as stated: [len(B) = 1 < l = 2] but [B[0]] is empty, so the
    loops never index [B] and [matmul([[1.0, 2.0]], [[]])] returns [[[]]]. *)
Lemma matmul_short_B_no_error_counterexample :
  length [@nil float] < length [1%float; 2%float] /\
  fmatmul [[1%float; 2%float]] [[]] = Ok [[]].
Proof. split; [simpl; lia | vm_compute; reflexivity]. Qed.

End MatMulFacts.

(* ------------------------------------------------------------------ *)
(** ** Facts about the strategies of [habr.py]                          *)
(* ------------------------------------------------------------------ *)

Module HabrFacts.
Import Habr.

Lemma length_range a b : length (range a b) = Z.to_nat (b - a).
Proof. unfold range. by rewrite length_fmap, length_seq. Qed.

Lemma lookup_range a b k :
  k < Z.to_nat (b - a) -> range a b !! k = Some (a + Z.of_nat k)%Z.
Proof. intros Hk. unfold range. by rewrite list_lookup_fmap, lookup_seq_lt. Qed.

Lemma range_nonpos a b : (b <= a)%Z -> range a b = [].
Proof. intros H. unfold range. by replace (Z.to_nat (b - a)) with 0 by lia. Qed.

(** After the workers complete the positions of [order], each completed
    position holds its own result and the others are untouched. *)
Lemma pool_slots {A B} (f : A -> B) (xs : list A) (order : list nat) :
  forall (slots : list (option B)) k,
  length slots = length xs ->
  foldl (fun slots k => match xs !! k with
                        | Some x => <[k := Some (f x)]> slots
                        | None => slots end) slots order !! k
  = if decide (k ∈ order /\ k < length xs) then Some (f <$> xs !! k) else slots !! k.
Proof.
  induction order as [|o order IH]; intros slots k Hlen; cbn [foldl].
  - rewrite decide_False; [done|]. set_solver.
  - rewrite IH.
    2:{ destruct (xs !! o); [by rewrite length_insert|done]. }
    destruct (decide (k ∈ order /\ k < length xs)) as [Hin|Hnin].
    + rewrite decide_True by set_solver. done.
    + destruct (decide (k = o)) as [Heq|Hne].
      * subst k. destruct (xs !! o) as [x|] eqn:Ho.
        -- rewrite decide_True by (split; [set_solver|eapply lookup_lt_Some; eauto]).
           rewrite list_lookup_insert_eq by (rewrite Hlen; eapply lookup_lt_Some; eauto).
           done.
        -- rewrite decide_False; [done|]. intros [_ Hlt].
           apply lookup_lt_is_Some_2 in Hlt. rewrite Ho in Hlt. by destruct Hlt.
      * rewrite decide_False by set_solver.
        destruct (xs !! o); [|done]. by rewrite list_lookup_insert_ne by congruence.
Qed.

(** [Pool.map] returns the results in submission order, whatever the order
    in which the workers complete the tasks. *)
Lemma pool_map_ordered {A B} (f : A -> B) (xs : list A) (order : list nat) :
  (forall k, k < length xs -> k ∈ order) -> pool_map f xs order = Some (map f xs).
Proof.
  intros Hcov. unfold pool_map.
  replace (foldl _ (replicate (length xs) None) order) with (Some <$> map f xs).
  - by apply mapM_fmap_Some.
  - apply list_eq. intros k. rewrite pool_slots by apply length_replicate.
    rewrite !list_lookup_fmap.
    destruct (decide (k < length xs)) as [Hk|Hk].
    + rewrite decide_True by auto. by destruct (lookup_lt_is_Some_2 xs k Hk) as [? ->].
    + rewrite decide_False by tauto.
      rewrite (lookup_ge_None_2 xs k) by lia.
      rewrite (proj1 (lookup_replicate_None _ _ _)) by lia. done.
Qed.

Lemma perm_covers (order : list nat) n :
  order ≡ₚ seq 0 n -> forall k, k < n -> k ∈ order.
Proof. intros Hp k Hk. rewrite Hp. apply elem_of_seq. lia. Qed.

(** The printed lines of [n] results: [Article i title: f(i)] for each
    [i in range(1, n_tasks)] in order. *)
Lemma print_titles_range (f : Z -> string) a b :
  a = 1%Z -> print_titles (map f (range a b)) = map (fun i => line i (f i)) (range a b).
Proof.
  intros ->. apply list_eq. intros k. unfold print_titles.
  rewrite list_lookup_imap, !list_lookup_fmap.
  destruct (decide (k < Z.to_nat (b - 1))) as [Hk|Hk].
  - rewrite lookup_range by done. simpl. do 2 f_equal. lia.
  - unfold range. rewrite list_lookup_fmap, lookup_seq_ge by lia. done.
Qed.

Lemma thread_pool_result f n_tasks pool_size order :
  (1 <= pool_size)%Z -> (forall k, k < Z.to_nat (n_tasks - 1) -> k ∈ order) ->
  thread_pool f n_tasks pool_size order
  = Ok (Some (map f (range 1 n_tasks), map (fun i => line i (f i)) (range 1 n_tasks))).
Proof.
  intros Hps Hcov. unfold thread_pool, make_pool.
  rewrite decide_False by lia. cbn [mbind res_bind].
  rewrite pool_map_ordered by (rewrite length_range; auto). simpl.
  by rewrite print_titles_range.
Qed.

Lemma process_pool_result f n_tasks pool_size order :
  (1 <= pool_size)%Z -> (forall k, k < Z.to_nat (n_tasks - 1) -> k ∈ order) ->
  process_pool f n_tasks pool_size order
  = Ok (Some (map f (range 1 n_tasks), map (fun i => line i (f i)) (range 1 n_tasks))).
Proof.
  intros Hps Hcov. unfold process_pool, make_pool.
  rewrite decide_False by lia. cbn [mbind res_bind].
  rewrite pool_map_ordered by (rewrite length_range; auto). simpl.
  by rewrite print_titles_range.
Qed.

Lemma length_spawned tgt n : length (spawned tgt n) = Z.to_nat n.
Proof. unfold spawned. rewrite length_fmap, length_range. f_equal. lia. Qed.

Lemma spawned_lookup tgt n k :
  k < Z.to_nat n -> spawned tgt n !! k = Some {| th_target := tgt; th_arg := (1 + Z.of_nat k)%Z |}.
Proof.
  intros Hk. unfold spawned. rewrite list_lookup_fmap, lookup_range; [done|]. lia.
Qed.

Lemma spawned_targets tgt n : Forall (fun th => th_target th = tgt) (spawned tgt n).
Proof. unfold spawned. apply Forall_fmap, Forall_true. done. Qed.

(** Threads whose target is [get_article_title] leave the shared store as it is. *)
Lemma run_threads_noop f n sched st :
  run_threads f (spawned T_get_article_title n) sched st = st.
Proof.
  revert st. induction sched as [|k sched IH]; intros st; [done|].
  unfold run_threads in *. cbn [foldl]. rewrite IH.
  destruct (spawned T_get_article_title n !! k) as [th|] eqn:Hth; [|done].
  pose proof (Forall_lookup_1 _ _ _ _ (spawned_targets T_get_article_title n) Hth) as Ht.
  unfold run_thread. simpl in Ht. by rewrite Ht.
Qed.

(** The sibling target [get_article_title_ths], under any schedule of the
    spawned threads, writes slot [i - 1] of [titles] with the result for
    task [i], and nothing else. *)
Lemma run_threads_ths f n sched : forall st,
  length (titles st) = Z.to_nat n -> (forall k, k ∈ sched -> k < Z.to_nat n) ->
  (forall k, titles (run_threads f (spawned T_get_article_title_ths n) sched st) !! k
             = if decide (k ∈ sched) then Some (f (1 + Z.of_nat k)%Z) else titles st !! k) /\
  written (run_threads f (spawned T_get_article_title_ths n) sched st)
  = (written st ++ map Z.of_nat sched)%list.
Proof.
  induction sched as [|k sched IH]; intros st Hlen Hs; cbn [run_threads foldl].
  - split; [|by rewrite app_nil_r]. intros k. rewrite decide_False; [done|]. set_solver.
  - assert (Hk : k < Z.to_nat n) by (apply Hs; set_solver).
    rewrite spawned_lookup by done.
    set (st1 := run_thread f _ st).
    assert (Hst1 : st1 = {| titles := <[k := f (1 + Z.of_nat k)%Z]> (titles st);
                           written := (written st ++ [Z.of_nat k])%list |}).
    { unfold st1, run_thread, py_setitem, setitem. simpl.
      rewrite decide_True by lia. rewrite decide_True by lia.
      replace (Z.to_nat (1 + Z.of_nat k - 1)) with k by lia.
      by replace (1 + Z.of_nat k - 1)%Z with (Z.of_nat k) by lia. }
    unfold run_threads in IH.
    destruct (IH st1) as [IHt IHw].
    + rewrite Hst1. simpl. by rewrite length_insert.
    + intros k' Hk'. apply Hs. set_solver.
    + split.
      * intros k'. rewrite IHt, Hst1. simpl.
        destruct (decide (k' ∈ sched)); [rewrite decide_True by set_solver; done|].
        destruct (decide (k' = k)) as [Heq|Hne].
        -- subst k'. rewrite decide_True by set_solver.
           by rewrite list_lookup_insert_eq by lia.
        -- rewrite decide_False by set_solver. by rewrite list_lookup_insert_ne by congruence.
      * rewrite IHw, Hst1. simpl. by rewrite <- app_assoc.
Qed.

(** With [target=get_article_title_ths] and every spawned thread run once,
    slot [i - 1] holds the result for task [i] for every [i] in [1..n_tasks],
    and every slot is written exactly once. *)
Lemma threads_ths_fills_slots f n sched :
  sched ≡ₚ seq 0 (Z.to_nat n) ->
  titles (fst (threads_with f T_get_article_title_ths n sched)) = map f (range 1 (n + 1)) /\
  written (fst (threads_with f T_get_article_title_ths n sched)) ≡ₚ
    map Z.of_nat (seq 0 (Z.to_nat n)).
Proof.
  intros Hp. unfold threads_with. simpl.
  destruct (run_threads_ths f n sched {| titles := list_mul "" n; written := [] |})
    as [Ht Hw].
  - simpl. unfold list_mul. by rewrite length_replicate.
  - intros k Hk. rewrite Hp in Hk. apply elem_of_seq in Hk. lia.
  - split.
    + apply list_eq. intros k. rewrite Ht. simpl. rewrite list_lookup_fmap.
      destruct (decide (k ∈ sched)) as [Hk|Hk]; rewrite Hp in Hk;
        [apply elem_of_seq in Hk | rewrite elem_of_seq in Hk].
      * rewrite lookup_range by lia. done.
      * unfold list_mul. rewrite (proj1 (lookup_replicate_None _ _ _)) by lia.
        unfold range. rewrite list_lookup_fmap, lookup_seq_ge by lia. done.
    + rewrite Hw. simpl. by rewrite Hp.
Qed.

Lemma single_result f n :
  single f n = (map f (range 1 n), map (fun i => line i (f i)) (range 1 n)).
Proof. unfold single. by rewrite print_titles_range. Qed.

Lemma threads_store f n sched :
  fst (threads f n sched) = {| titles := list_mul "" n; written := [] |}.
Proof. unfold threads, threads_with. simpl. by rewrite run_threads_noop. Qed.

(** C1 (what the code does). For [n_tasks >= 1]: [single], [thread_pool] and
    [process_pool] fill [n_tasks - 1] slots (tasks [1 .. n_tasks - 1]; task
    [n_tasks] is never run), and [threads] writes no slot at all: its
    [titles] list stays [[""] * n_tasks]. *)
Theorem strategies_slot_counts f n pool_size order sched :
  (1 <= n)%Z -> (1 <= pool_size)%Z -> order ≡ₚ seq 0 (Z.to_nat n - 1) ->
  length (fst (single f n)) = Z.to_nat n - 1 /\
  fst (threads f n sched) = {| titles := list_mul "" n; written := [] |} /\
  (exists ts out, thread_pool f n pool_size order = Ok (Some (ts, out)) /\
                  length ts = Z.to_nat n - 1) /\
  (exists ts out, process_pool f n pool_size order = Ok (Some (ts, out)) /\
                  length ts = Z.to_nat n - 1).
Proof.
  intros Hn Hps Hp.
  assert (Hcov : forall k, k < Z.to_nat (n - 1) -> k ∈ order)
    by (intros; eapply perm_covers; [exact Hp|lia]).
  assert (Hlen : length (map f (range 1 n)) = Z.to_nat n - 1)
    by (rewrite length_map, length_range; lia).
  split; [|split; [|split]].
  - by rewrite single_result.
  - apply threads_store.
  - eexists _, _. split; [by apply thread_pool_result|done].
  - eexists _, _. split; [by apply process_pool_result|done].
Qed.

Lemma strategies_slot_counts_witness :
  length (fst (single pretty 3)) = 2 /\
  fst (threads pretty 3 [2; 0; 1]) = {| titles := [""; ""; ""]; written := [] |} /\
  (exists ts out, thread_pool pretty 3 10 [1; 0] = Ok (Some (ts, out)) /\ length ts = 2) /\
  (exists ts out, process_pool pretty 3 10 [1; 0] = Ok (Some (ts, out)) /\ length ts = 2).
Proof.
  apply (strategies_slot_counts pretty 3 10 [1; 0] [2; 0; 1]); [lia|lia|].
  simpl. apply Permutation_swap.
Defined.

(** C2 (what the code does). [threads] spawns one thread per task
    [1 .. n_tasks], each with target [get_article_title]; the results are
    dropped, so under every schedule the shared [titles] list keeps its
    initial [""] entries and no slot is written. *)
Theorem threads_spawn_but_never_write f n sched :
  length (spawned T_get_article_title n) = Z.to_nat n /\
  map th_arg (spawned T_get_article_title n) = range 1 (n + 1) /\
  Forall (fun th => th_target th = T_get_article_title) (spawned T_get_article_title n) /\
  fst (threads f n sched) = {| titles := list_mul "" n; written := [] |}.
Proof.
  split; [apply length_spawned|]. split; [|split; [apply spawned_targets|apply threads_store]].
  unfold spawned. rewrite map_map. apply map_id.
Qed.

(** C3 (what the code does). With every pool task completed once,
    [thread_pool] and [process_pool] return exactly what [single] returns,
    but [threads] ends with a [titles] list different from [single]'s. *)
Theorem strategies_compared f n pool_size order sched :
  (1 <= n)%Z -> (1 <= pool_size)%Z -> order ≡ₚ seq 0 (Z.to_nat n - 1) ->
  thread_pool f n pool_size order = Ok (Some (single f n)) /\
  process_pool f n pool_size order = Ok (Some (single f n)) /\
  titles (fst (threads f n sched)) <> fst (single f n).
Proof.
  intros Hn Hps Hp.
  assert (Hcov : forall k, k < Z.to_nat (n - 1) -> k ∈ order)
    by (intros; eapply perm_covers; [exact Hp|lia]).
  rewrite single_result. split; [|split].
  - by apply thread_pool_result.
  - by apply process_pool_result.
  - rewrite threads_store. simpl. intros Heq.
    apply (f_equal length) in Heq. unfold list_mul in Heq.
    rewrite length_replicate, length_map, length_range in Heq. lia.
Qed.

Lemma strategies_compared_witness :
  thread_pool pretty 3 10 [1; 0] = Ok (Some (single pretty 3)) /\
  process_pool pretty 3 10 [1; 0] = Ok (Some (single pretty 3)) /\
  titles (fst (threads pretty 3 [2; 0; 1])) <> fst (single pretty 3).
Proof.
  apply (strategies_compared pretty 3 10 [1; 0] [2; 0; 1]); [lia|lia|].
  simpl. apply Permutation_swap.
Defined.

(** C7 (what the code does). Whatever the completion order of the workers,
    [thread_pool] and [process_pool] return [f(i)] for [i in range(1, n_tasks)]
    in submission order and print [Article {i:2} title: f(i)] for those [i]
    in increasing order: [n_tasks - 1] lines, none for task [n_tasks]. *)
Theorem pool_results_in_submission_order f n pool_size order :
  (1 <= pool_size)%Z -> order ≡ₚ seq 0 (Z.to_nat (n - 1)) ->
  thread_pool f n pool_size order
    = Ok (Some (map f (range 1 n), map (fun i => line i (f i)) (range 1 n))) /\
  process_pool f n pool_size order
    = Ok (Some (map f (range 1 n), map (fun i => line i (f i)) (range 1 n))) /\
  range 1 n = map (fun k => (1 + Z.of_nat k)%Z) (seq 0 (Z.to_nat (n - 1))).
Proof.
  intros Hps Hp.
  assert (Hcov : forall k, k < Z.to_nat (n - 1) -> k ∈ order)
    by (intros; eapply perm_covers; [exact Hp|lia]).
  split; [|split].
  - by apply thread_pool_result.
  - by apply process_pool_result.
  - done.
Qed.

Lemma pool_results_in_submission_order_witness :
  thread_pool pretty 3 10 [1; 0]
    = Ok (Some (["1"; "2"], ["Article  1 title: 1"; "Article  2 title: 2"])) /\
  process_pool pretty 3 10 [1; 0]
    = Ok (Some (["1"; "2"], ["Article  1 title: 1"; "Article  2 title: 2"])) /\
  range 1 3 = [1; 2]%Z.
Proof.
  destruct (pool_results_in_submission_order pretty 3 10 [1; 0]) as (H1 & H2 & H3).
  - lia.
  - simpl. apply Permutation_swap.
  - split; [rewrite H1 | split; [rewrite H2 | rewrite H3]]; vm_compute; reflexivity.
Defined.

End HabrFacts.

(* ------------------------------------------------------------------ *)
(** ** Facts about the two [main] functions                            *)
(* ------------------------------------------------------------------ *)

Module MainsFacts.
Import Habr HabrFacts Mains.

(** C4 (what the code does). [habr.py] checks no task count: with
    [n_tasks <= 0] (and a valid [--pool_size]) every mode runs no task,
    prints nothing and exits with status 0. [matmul.py] rejects
    [njobs <= 0] before any job with status 1 and a message on stderr. *)
Theorem nonpositive_counts f mode n pool_size sched :
  (n <= 0)%Z -> (1 <= pool_size)%Z ->
  habr_main f mode n pool_size sched
    = Some {| exit_code := 0; stdout := []; stderr := []; tasks_run := 0 |} /\
  forall mm, matmul_main (Some n) mm
    = {| exit_code := 1; stdout := []; stderr := ["--njobs must be a positive integer."];
         tasks_run := 0 |}.
Proof.
  intros Hn Hps. split.
  - assert (Hr : range 1 n = []) by (apply range_nonpos; lia).
    assert (Hcov : forall k, k < Z.to_nat (n - 1) -> k ∈ sched) by lia.
    destruct mode; unfold habr_main.
    + rewrite single_result, Hr. done.
    + unfold threads, threads_with. rewrite run_threads_noop, length_spawned. simpl.
      unfold list_mul. replace (Z.to_nat n) with 0 by lia. done.
    + rewrite thread_pool_result by done. unfold of_pool. rewrite Hr. done.
    + rewrite process_pool_result by done. unfold of_pool. rewrite Hr. done.
  - intros mm. unfold matmul_main. by rewrite decide_True by lia.
Qed.

Lemma nonpositive_counts_witness :
  habr_main pretty Pool 0 10 []
    = Some {| exit_code := 0; stdout := []; stderr := []; tasks_run := 0 |} /\
  forall mm, matmul_main (Some 0%Z) mm
    = {| exit_code := 1; stdout := []; stderr := ["--njobs must be a positive integer."];
         tasks_run := 0 |}.
Proof. apply (nonpositive_counts pretty Pool 0 10 []); lia. Defined.

End MainsFacts.

(* ------------------------------------------------------------------ *)
(** ** Facts about fetching                                            *)
(* ------------------------------------------------------------------ *)

Module FetchFacts.
Import Fetch.

Section Loop.
Context (net : string -> nat -> outcome).





End Loop.



End FetchFacts.

Module FetchClaims.
Import Fetch FetchFacts.




End FetchClaims.

(* ------------------------------------------------------------------ *)
(** ** Facts about the toy server                                      *)
(* ------------------------------------------------------------------ *)

Module ServerFacts.
Import Server.

(** Claim C8. The handler is a pure, stateless function of its path
    parameter: serving any sequence of requests answers each one with the
    handler applied to that request alone and leaves the shared state as it
    was, so two requests with the same [input_string] get the same
    response. *)
Theorem handler_pure_stateless (find_palindrome : string -> string) {St : Type}
    (st : St) (reqs : list string) :
  serve find_palindrome st reqs = (map (longest_palindrome find_palindrome) reqs, st) /\
  (forall i j r, reqs !! i = Some r -> reqs !! j = Some r ->
     fst (serve find_palindrome st reqs) !! i = fst (serve find_palindrome st reqs) !! j).
Proof.
  assert (Hs : serve find_palindrome st reqs
               = (map (longest_palindrome find_palindrome) reqs, st)).
  { induction reqs as [|r reqs IH]; [done|]. simpl. by rewrite IH. }
  split; [exact Hs|]. intros i j r Hi Hj. rewrite Hs. simpl.
  by rewrite !list_lookup_fmap, Hi, Hj.
Qed.

(** The requests ["abba"; "x"; "abba"]: the first and third answers agree. *)
Lemma handler_pure_stateless_witness :
  fst (serve (fun s => s) tt ["abba"; "x"; "abba"]) !! 0
  = fst (serve (fun s => s) tt ["abba"; "x"; "abba"]) !! 2.
Proof.
  apply (proj2 (handler_pure_stateless (fun s => s) tt ["abba"; "x"; "abba"]) 0 2 "abba");
    reflexivity.
Defined.

End ServerFacts.

(* ------------------------------------------------------------------ *)
(** ** Facts about [multy_thread] on the shared heap                   *)
(* ------------------------------------------------------------------ *)

Module MatMulHeapFacts.
Import MatMulHeap.

Section Frame.
Context {R : Type} (zero : R) (add mul : R -> R -> R).
Context (h0 : heap R).

Lemma frame_inv_refl : frame_inv h0 h0.
Proof.
  split; [done|]. intros x o y Hx Hl. exfalso. apply Hx. by eapply elem_of_dom_2.
Qed.

Lemma frame_inv_insert h x o :
  frame_inv h0 h -> x ∉ dom h0 -> (forall y, VRef y ∈ o -> y ∉ dom h0) ->
  frame_inv h0 (<[x := o]> h).
Proof.
  intros [Hsub Hrefs] Hx Ho. split.
  - apply insert_subseteq_r; [by apply not_elem_of_dom|done].
  - intros z o' y Hz Hl Hy. destruct (decide (x = z)) as [<-|Hne].
    + rewrite lookup_insert_eq in Hl. injection Hl as <-. auto.
    + rewrite lookup_insert_ne in Hl by done. eauto.
Qed.

Lemma alloc_inv h o :
  frame_inv h0 h -> (forall y, VRef y ∈ o -> y ∉ dom h0) ->
  frame_inv h0 (alloc h o).1 /\ (alloc h o).2 ∉ dom h0.
Proof.
  intros Hinv Ho. unfold alloc. simpl.
  assert (Hx : fresh (dom h) ∉ dom h0).
  { intros Hin. apply (is_fresh (dom h)).
    by apply (subseteq_dom _ _ (proj1 Hinv)). }
  split; [|done]. by apply frame_inv_insert.
Qed.

Lemma alloc_rows_inv h m n :
  frame_inv h0 h ->
  frame_inv h0 (alloc_rows zero h m n).1 /\
  Forall (fun x => x ∉ dom h0) (alloc_rows zero h m n).2.
Proof.
  revert h. induction m as [|m IH]; intros h Hinv; cbn [alloc_rows]; [done|].
  destruct (alloc_inv h (replicate n (VFloat zero))) as [Hinv1 Hx].
  { done. }
  { intros y Hy. by apply elem_of_replicate_inv in Hy. }
  destruct (alloc h (replicate n (VFloat zero))) as [h1 x] eqn:Ha. simpl in *.
  pose proof (IH h1 Hinv1) as Hih.
  destruct (alloc_rows zero h1 m n) as [h2 xs]. simpl in *.
  destruct Hih as [Hinv2 Hxs]. split; [done|by constructor].
Qed.

Lemma read_mac_row h a b c i j k ci v :
  frame_inv h0 h -> c ∉ dom h0 ->
  read_mac add mul h a b c i j k = Ok (ci, v) -> ci ∉ dom h0.
Proof.
  intros [_ Hrefs] Hc. unfold read_mac, obj, getitem, as_ref.
  unfold mbind, res_bind at 1 2.
  destruct (h !! c) as [C|] eqn:HC; [|discriminate].
  destruct (C !! i) as [[r|x]|] eqn:Hi; [discriminate| |discriminate].
  intros H. assert (x = ci) as <-.
  { unfold mbind, res_bind in H. repeat case_match; simplify_eq; done. }
  eapply Hrefs; [exact Hc|exact HC|]. by eapply list_elem_of_lookup_2.
Qed.

Lemma store_inv h ci j v Ci' :
  frame_inv h0 h -> ci ∉ dom h0 ->
  (Ci ← obj h ci; setitem Ci j (VFloat v)) = Ok Ci' ->
  frame_inv h0 (<[ci := Ci']> h).
Proof.
  intros Hinv Hci. unfold obj, setitem, mbind, res_bind.
  destruct (h !! ci) as [Ci|] eqn:HCi; [|discriminate].
  case_decide as Hj; [|discriminate]. intros [= <-].
  apply frame_inv_insert; [done|done|]. intros y Hy.
  apply list_elem_of_lookup_1 in Hy as [p Hp].
  destruct (decide (j = p)) as [<-|Hne].
  - by rewrite list_lookup_insert_eq in Hp.
  - rewrite list_lookup_insert_ne in Hp by done.
    eapply (proj2 Hinv); [exact Hci|exact HCi|]. by eapply list_elem_of_lookup_2.
Qed.

Lemma step_inv h s :
  frame_inv h0 h -> thread_ok h0 s ->
  frame_inv h0 (step zero add mul h s).1 /\ thread_ok h0 (step zero add mul h s).2.
Proof.
  intros Hinv Hs. destruct s as [a b|a b c m l n i j k|a b c m l n i j k ci v|c|e];
    simpl in *.
  - destruct (read_shape h a b) as [[[m l] n]|e]; simpl; [|done].
    destruct (alloc_rows_inv h m n Hinv) as [Hinv1 Hrows].
    destruct (alloc_rows zero h m n) as [h1 rows]. simpl in *.
    destruct (alloc_inv h1 (VRef <$> rows) Hinv1) as [Hinv2 Hc].
    { intros y Hy. apply list_elem_of_fmap_1 in Hy as (y' & [= <-] & Hy').
      by eapply Forall_forall in Hrows. }
    exact (conj Hinv2 Hc).
  - case_decide; [done|]. case_decide; [done|]. case_decide; [done|].
    destruct (read_mac add mul h a b c i j k) as [[ci v]|e] eqn:Hr; simpl; [|done].
    split; [done|]. split; [done|]. by eapply read_mac_row.
  - destruct Hs as [Hc Hci].
    destruct (Ci ← obj h ci; setitem Ci j (VFloat v)) as [Ci'|e] eqn:Hw; simpl; [|done].
    split; [by eapply store_inv|done].
  - done.
  - done.
Qed.

Lemma run_sched_inv sched h ths :
  frame_inv h0 h -> Forall (thread_ok h0) ths ->
  frame_inv h0 (run_sched zero add mul sched (h, ths)).1 /\
  Forall (thread_ok h0) (run_sched zero add mul sched (h, ths)).2.
Proof.
  unfold run_sched. revert h ths.
  induction sched as [|t sched IH]; intros h ths Hinv Hths; simpl; [done|].
  destruct (ths !! t) as [s|] eqn:Ht; [|by apply IH].
  destruct (step_inv h s Hinv) as [Hinv' Hs'].
  { by eapply Forall_lookup_1. }
  destruct (step zero add mul h s) as [h' s']. simpl in *.
  apply IH; [done|]. by apply Forall_insert.
Qed.

End Frame.

(** Claim C10. However [njobs] threads running [matmul(A, B)] on the same
    [A] and [B] are interleaved, every object present before they start,
    in particular every list of [A] and [B], keeps its contents: the
    threads store only into the result matrices they allocate, each thread
    that returns hands back a new matrix, and the new objects never refer
    to the old ones, so [C] shares no row with [A] or [B]. *)
Theorem matmul_threads_frame {R : Type} (zero : R) (add mul : R -> R -> R)
    (h0 : heap R) (a b : loc) (njobs : nat) (sched : list nat) :
  let st := multy_thread zero add mul h0 a b njobs sched in
  h0 ⊆ st.1 /\
  (forall t c, st.2 !! t = Some (Finished c) -> c ∉ dom h0) /\
  (forall x o y, x ∉ dom h0 -> st.1 !! x = Some o -> VRef y ∈ o -> y ∉ dom h0).
Proof.
  intros st. unfold st, multy_thread.
  destruct (run_sched_inv zero add mul h0 sched h0 (replicate njobs (Start a b)))
    as [[Hsub Hrefs] Hths].
  { apply frame_inv_refl. }
  { by apply Forall_replicate. }
  split; [done|]. split; [|done].
  intros t c Ht. by eapply (Forall_lookup_1 _ _ _ _ Hths) in Ht.
Qed.

(** Two threads multiplying [A = [[1, 2]]] by [B = [[3], [4]]], alternating
    step by step: the first returns a new matrix [[[11]]]. *)
Lemma matmul_threads_frame_witness :
  let st := multy_thread 0%Z Z.add Z.mul example_heap 1%positive 3%positive 2 example_sched in
  st.2 !! 0 = Some (Finished 7%positive) /\ (7%positive ∉ dom example_heap) /\
  st.1 !! 7%positive = Some [VRef 6%positive] /\ st.1 !! 6%positive = Some [VFloat 11%Z].
Proof.
  intros st. split; [vm_compute; reflexivity|]. split; [|split; vm_compute; reflexivity].
  apply (proj1 (proj2 (matmul_threads_frame 0%Z Z.add Z.mul example_heap
                         1%positive 3%positive 2 example_sched)) 0).
  vm_compute. reflexivity.
Defined.

End MatMulHeapFacts.

(* ------------------------------------------------------------------ *)
(** ** More facts about [matmul]: what it reads, edge shapes, row blocks *)
(* ------------------------------------------------------------------ *)

Module MatMulMore.
Import MatMul MatMulFacts.

Lemma for_in_ext {S} (xs : list nat) (b1 b2 : nat -> S -> res S) s :
  (forall x s, x ∈ xs -> b1 x s = b2 x s) -> for_in xs b1 s = for_in xs b2 s.
Proof.
  revert s. induction xs as [|x xs IH]; intros s Hb; [done|]. cbn [for_in].
  rewrite Hb by set_solver. unfold mbind, res_bind. destruct (b2 x s); [|done].
  apply IH. intros. apply Hb. set_solver.
Qed.

Section Reads.
Context {R : Type} (zero : R) (add mul : R -> R -> R).

Lemma mac_step_alt (A B : list (list R)) i j k C :
  mac_step add mul A B i j k C
  = (Ci ← getitem C i;
     cij ← getitem Ci j;
     aik ← opt_res (A !! i ≫= (fun r => r !! k));
     bkj ← opt_res (B !! k ≫= (fun r => r !! j));
     Ci' ← setitem Ci j (add cij (mul aik bkj));
     setitem C i Ci').
Proof.
  unfold mac_step, getitem, mbind, res_bind.
  destruct (C !! i) as [Ci|]; [|done]. destruct (Ci !! j) as [c|]; [|done].
  destruct (A !! i) as [Ai|]; [|done]. simpl. destruct (Ai !! k) as [a|]; [|done].
  destruct (B !! k) as [Bk|]; [|done]. simpl. by destruct (Bk !! j).
Qed.

Lemma mac_step_reads (A A' B B' : list (list R)) i j k C :
  A !! i ≫= (fun r => r !! k) = A' !! i ≫= (fun r => r !! k) ->
  B !! k ≫= (fun r => r !! j) = B' !! k ≫= (fun r => r !! j) ->
  mac_step add mul A B i j k C = mac_step add mul A' B' i j k C.
Proof. intros HA HB. by rewrite !mac_step_alt, HA, HB. Qed.

Lemma dot_row (A A' B : list (list R)) i i' j l :
  nth i A [] = nth i' A' [] -> dot zero add mul A B i j l = dot zero add mul A' B i' j l.
Proof. intros H. unfold dot, term. by rewrite H. Qed.

Lemma product_lookup (A B : list (list R)) i :
  product zero add mul A B !! i
  = if decide (i < length A)
    then Some (map (fun j => dot zero add mul A B i j (length (nth 0 A [])))
                   (seq 0 (length (nth 0 B []))))
    else None.
Proof.
  unfold product. rewrite list_lookup_fmap. case_decide.
  - by rewrite lookup_seq_lt.
  - by rewrite lookup_seq_ge by lia.
Qed.

Lemma length_product (A B : list (list R)) : length (product zero add mul A B) = length A.
Proof. unfold product. by rewrite length_map, length_seq. Qed.

Lemma in_range_app (A1 A2 B : list (list R)) :
  in_range A1 B -> in_range A2 B -> length (nth 0 A1 []) = length (nth 0 A2 []) ->
  in_range (A1 ++ A2) B.
Proof.
  intros (HA1 & HB & Hr1 & Hl1 & HBr) (HA2 & _ & Hr2 & _ & _) Hl.
  assert (H0 : nth 0 (A1 ++ A2) [] = nth 0 A1 []).
  { destruct A1; [done|]. done. }
  split; [by destruct A1|]. split; [done|]. rewrite H0. split; [|done].
  apply Forall_app. split; [done|]. rewrite Hl. done.
Qed.

End Reads.

(** Extra: [matmul] reads [A] and [B] only at [A[i][k]] and [B[k][j]] for
    [i < len(A)], [k < len(A[0])], [j < len(B[0])], besides the lengths of
    [A], [A[0]] and [B[0]]: two argument pairs that agree there give the
    same result or the same error; in particular extra rows of [B] and
    extra entries in the rows of [A] or [B] are ignored without a check. *)
Theorem matmul_reads_only {R : Type} (zero : R) (add mul : R -> R -> R)
    (A A' B B' : list (list R)) :
  length A = length A' ->
  length (nth 0 A []) = length (nth 0 A' []) ->
  (B = [] <-> B' = []) ->
  length (nth 0 B []) = length (nth 0 B' []) ->
  (forall i k, i < length A -> k < length (nth 0 A []) ->
     A !! i ≫= (fun r => r !! k) = A' !! i ≫= (fun r => r !! k)) ->
  (forall k j, k < length (nth 0 A []) -> j < length (nth 0 B []) ->
     B !! k ≫= (fun r => r !! j) = B' !! k ≫= (fun r => r !! j)) ->
  matmul zero add mul A B = matmul zero add mul A' B'.
Proof.
  intros Hm Hl HB Hn HAr HBr.
  destruct A as [|A0 A1], A' as [|A0' A1']; try discriminate; [done|].
  destruct B as [|B0 B1], B' as [|B0' B1'];
    [done | pose proof (proj1 HB eq_refl); discriminate
     | pose proof (proj2 HB eq_refl); discriminate |].
  unfold matmul. cbn [getitem lookup list_lookup mbind res_bind].
  simpl in Hl, Hn. rewrite <- Hm, <- Hl, <- Hn.
  apply for_in_ext. intros i C1 Hi. apply for_in_ext. intros j C2 Hj.
  apply for_in_ext. intros k C3 Hk.
  apply elem_of_seq in Hi, Hj, Hk.
  apply mac_step_reads; [apply HAr | apply HBr]; simpl in *; lia.
Qed.

(** Extra: when [A[0]] is empty ([l = 0]) and [B] is not, no product is
    computed and [matmul] returns the [len(A) x len(B[0])] zero matrix,
    whatever the other rows of [A] and [B] hold. *)
Theorem matmul_empty_inner {R : Type} (zero : R) (add mul : R -> R -> R)
    (A B : list (list R)) :
  A <> [] -> nth 0 A [] = [] -> B <> [] ->
  matmul zero add mul A B = Ok (zeros zero (length A) (length (nth 0 B []))).
Proof.
  intros HA H0 HB. destruct A as [|A0 A']; [done|]. destruct B as [|B0 B']; [done|].
  simpl in H0. subst A0. unfold matmul. cbn [getitem lookup list_lookup mbind res_bind].
  rewrite for_in_noop; [done|]. intros i C. rewrite for_in_noop; [done|]. done.
Qed.

(** Extra: a row of [A] shorter than [A[0]] is not padded: when [B[0]] is
    non-empty, [matmul] raises [IndexError], whatever [B]'s other rows. *)
Theorem matmul_ragged_A {R : Type} (zero : R) (add mul : R -> R -> R)
    (A B : list (list R)) i Ai B0 :
  A !! i = Some Ai -> length Ai < length (nth 0 A []) ->
  B !! 0 = Some B0 -> B0 <> [] ->
  matmul zero add mul A B = Err IndexError.
Proof.
  intros HAi Hl HB0 Hn.
  destruct (matmul zero add mul A B) as [C|e] eqn:Hm.
  - exfalso. revert Hm.
    destruct A as [|A0 A']; [done|]. destruct B as [|B0' B']; [done|].
    simpl in HB0. injection HB0 as ->.
    unfold matmul. cbn [getitem lookup list_lookup mbind res_bind].
    simpl in Hl.
    destruct (for_in_fails zero add mul (seq 0 (length (A0 :: A')))
      (fun i C => for_in (seq 0 (length B0)) (fun j C =>
         for_in (seq 0 (length A0)) (fun k C => mac_step add mul (A0 :: A') (B0 :: B') i j k C)
         C) C) i) with (s := replicate (length (A0 :: A')) (replicate (length B0) zero))
      as [e He].
    + apply elem_of_seq. apply lookup_lt_Some in HAi. lia.
    + intros C1. apply (for_in_fails zero add mul _ _ 0).
      { apply elem_of_seq. destruct B0; [done|]. simpl. lia. }
      intros C2. apply (for_in_fails zero add mul _ _ (length Ai)); [apply elem_of_seq; lia|].
      intros C3. rewrite mac_step_alt, HAi. simpl.
      rewrite (lookup_ge_None_2 Ai (length Ai)) by done.
      unfold getitem, opt_res, mbind, res_bind. repeat case_match; simplify_eq; eauto.
    + rewrite He. done.
  - f_equal. by apply (matmul_index_only zero add mul A B).
Qed.

(** Extra: [matmul] splits by rows. For [A1] and [A2] with rows of the same
    length [l], each in range for [B], multiplying the stacked matrix
    [A1 + A2] gives the stacked results. *)
Theorem matmul_row_blocks {R : Type} (zero : R) (add mul : R -> R -> R)
    (A1 A2 B : list (list R)) :
  in_range A1 B -> in_range A2 B -> length (nth 0 A1 []) = length (nth 0 A2 []) ->
  exists C1 C2, matmul zero add mul A1 B = Ok C1 /\ matmul zero add mul A2 B = Ok C2 /\
                matmul zero add mul (A1 ++ A2)%list B = Ok (C1 ++ C2)%list.
Proof.
  intros H1 H2 Hl. exists (product zero add mul A1 B), (product zero add mul A2 B).
  split; [by apply matmul_in_range|]. split; [by apply matmul_in_range|].
  rewrite matmul_in_range by (by apply in_range_app). f_equal.
  assert (HA1 : A1 <> []) by apply H1.
  assert (H0 : nth 0 (A1 ++ A2) [] = nth 0 A1 []) by (destruct A1; done).
  apply list_eq. intros i. rewrite product_lookup, H0, length_app.
  destruct (decide (i < length A1)) as [Hi|Hi].
  - rewrite lookup_app_l by (by rewrite length_product).
    rewrite product_lookup, decide_True by lia. rewrite decide_True by lia.
    f_equal. apply map_ext. intros j. apply dot_row. by apply app_nth1.
  - rewrite lookup_app_r by (rewrite length_product; lia).
    rewrite length_product, product_lookup, <- Hl.
    case_decide; case_decide; try lia; [|done].
    f_equal. apply map_ext. intros j. apply dot_row.
    replace i with (length A1 + (i - length A1)) at 1 by lia. apply app_nth2_plus.
Qed.

(** A row of [A] longer than [A[0]] and a third row of [B] are not read. *)
Lemma matmul_reads_only_witness :
  matmul 0%Z Z.add Z.mul [[1; 2]; [3; 4; 99]]%Z [[5]; [6]; [7]]%Z
  = matmul 0%Z Z.add Z.mul [[1; 2]; [3; 4]]%Z [[5]; [6]]%Z.
Proof.
  apply (matmul_reads_only 0%Z Z.add Z.mul); try reflexivity.
  - split; discriminate.
  - intros i k Hi Hk. simpl in Hi, Hk.
    assert (i = 0 \/ i = 1) as [-> | ->] by lia;
      assert (k = 0 \/ k = 1) as [-> | ->] by lia; reflexivity.
  - intros k j Hk Hj. simpl in Hk, Hj.
    assert (j = 0) as -> by lia.
    assert (k = 0 \/ k = 1) as [-> | ->] by lia; reflexivity.
Defined.

(** [A = [[], [7]]] times [B = [[1, 2]]]: the [2 x 2] zero matrix. *)
Lemma matmul_empty_inner_witness :
  matmul 0%Z Z.add Z.mul [[]; [7]]%Z [[1; 2]]%Z = Ok (zeros 0%Z 2 2).
Proof. apply (matmul_empty_inner 0%Z Z.add Z.mul); [discriminate | reflexivity | discriminate]. Defined.

(** [A = [[1, 2], [3]]] raises [IndexError] at [A[1][1]]. *)
Lemma matmul_ragged_A_witness :
  matmul 0%Z Z.add Z.mul [[1; 2]; [3]]%Z [[5]; [6]]%Z = Err IndexError.
Proof.
  apply (matmul_ragged_A 0%Z Z.add Z.mul _ _ 1 [3%Z] [5%Z]);
    [reflexivity | simpl; lia | reflexivity | discriminate].
Defined.

(** [[[1, 2]]] and [[[3, 4]]] stacked, times [[[5], [6]]]. *)
Lemma matmul_row_blocks_witness :
  exists C1 C2,
    matmul 0%Z Z.add Z.mul [[1; 2]]%Z [[5]; [6]]%Z = Ok C1 /\
    matmul 0%Z Z.add Z.mul [[3; 4]]%Z [[5]; [6]]%Z = Ok C2 /\
    matmul 0%Z Z.add Z.mul ([[1; 2]]%Z ++ [[3; 4]]%Z)%list [[5]; [6]]%Z = Ok (C1 ++ C2)%list.
Proof.
  apply (matmul_row_blocks 0%Z Z.add Z.mul);
    [ repeat split; try discriminate; repeat constructor; simpl; lia
    | repeat split; try discriminate; repeat constructor; simpl; lia
    | reflexivity ].
Defined.

End MatMulMore.

(* ------------------------------------------------------------------ *)
(** ** More facts about [get_page] and [get_habr_article]              *)
(* ------------------------------------------------------------------ *)

Module FetchMore.
Import Fetch FetchFacts.

Section Loop.
Context (net : string -> nat -> outcome).

Lemma loop_all_fail_events url t a left :
  (forall d, d < left -> exists p, net url (a + d) = Returns p /\ status_code p <> 200%Z) ->
  get_page_loop net url t a left = (Ok None, concat (replicate left [Get url; Sleep t])).
Proof.
  revert a. induction left as [|left IH]; intros a Hf; [done|]. simpl.
  destruct (Hf 0) as (p & Hp & Hs); [lia|]. rewrite Nat.add_0_r in Hp. rewrite Hp.
  rewrite decide_False by done.
  rewrite IH; [done|]. intros d Hd. specialize (Hf (S d) ltac:(lia)).
  rewrite Nat.add_succ_r in Hf. exact Hf.
Qed.

Lemma loop_decisive_events url t a left d o :
  d < left ->
  (forall d', d' < d -> exists p, net url (a + d') = Returns p /\ status_code p <> 200%Z) ->
  net url (a + d) = o ->
  match o with Returns p => status_code p = 200%Z | Raises _ => True end ->
  get_page_loop net url t a left
  = (match o with Returns p => Ok (Some p) | Raises e => Err e end,
     (concat (replicate d [Get url; Sleep t]) ++ [Get url])%list).
Proof.
  revert a d. induction left as [|left IH]; intros a d Hd Hf Ho Hs; [lia|]. simpl.
  destruct d as [|d].
  - rewrite Nat.add_0_r in Ho. rewrite Ho. destruct o as [p|e]; [|done].
    by rewrite decide_True.
  - destruct (Hf 0) as (p & Hp & Hs'); [lia|]. rewrite Nat.add_0_r in Hp. rewrite Hp.
    rewrite decide_False by done.
    rewrite (IH (S a) d); [done|lia| | |done].
    + intros d' Hd'. specialize (Hf (S d') ltac:(lia)).
      rewrite Nat.add_succ_r in Hf. exact Hf.
    + rewrite <- Ho. f_equal. lia.
Qed.

Lemma loop_page_ok url t a left p :
  fst (get_page_loop net url t a left) = Ok (Some p) -> status_code p = 200%Z.
Proof.
  revert a. induction left as [|left IH]; intros a; simpl; [done|].
  destruct (net url a) as [q|e]; simpl; [|done].
  case_decide; simpl; [by intros [= <-]|].
  specialize (IH (S a)). destruct (get_page_loop net url t (S a) left). simpl in *. done.
Qed.

End Loop.

(** Extra: when every attempt gets a non-200 status, [get_page] returns
    [None] after exactly [n_attempts] requests, each followed by
    [time.sleep(t_sleep)], the last one included; with [n_attempts <= 0]
    it makes no request at all. *)
Theorem get_page_all_fail net url n_attempts t_sleep :
  fails_before net url (Z.to_nat n_attempts) ->
  get_page net url n_attempts t_sleep
  = (Ok None, concat (replicate (Z.to_nat n_attempts) [Get url; Sleep t_sleep])).
Proof. intros Hf. unfold get_page. apply loop_all_fail_events. exact Hf. Qed.

(** Extra: [get_page] stops at the first attempt [d] that returns 200 or
    raises: it returns that page (or propagates that exception) after
    [d + 1] requests and [d] sleeps, and never makes a later request. *)
Theorem get_page_first_decisive net url n_attempts t_sleep d :
  d < Z.to_nat n_attempts -> fails_before net url d ->
  (forall p, net url d = Returns p -> status_code p = 200%Z ->
     get_page net url n_attempts t_sleep
     = (Ok (Some p), (concat (replicate d [Get url; Sleep t_sleep]) ++ [Get url])%list)) /\
  (forall e, net url d = Raises e ->
     get_page net url n_attempts t_sleep
     = (Err e, (concat (replicate d [Get url; Sleep t_sleep]) ++ [Get url])%list)).
Proof.
  intros Hd Hf. unfold get_page. split.
  - intros p Hp Hs. by apply (loop_decisive_events net url t_sleep 0 _ d (Returns p)).
  - intros e He. by apply (loop_decisive_events net url t_sleep 0 _ d (Raises e)).
Qed.

(** Extra: [get_habr_article]'s [if page:] test ([Response.ok], a status
    below 400) never rejects a page, since [get_page] returns only pages
    with status 200: the article text is returned exactly when [get_page]
    returns a page, after the same requests and sleeps. *)
Theorem get_habr_article_text net n :
  fst (get_habr_article net n)
  = (page ← fst (get_page net (base_url n) 5 1); Ok (option_map text page)) /\
  snd (get_habr_article net n) = snd (get_page net (base_url n) 5 1).
Proof.
  unfold get_habr_article.
  pose proof (loop_page_ok net (base_url n) 1 0 (Z.to_nat 5)) as Hok.
  unfold get_page in *.
  destruct (get_page_loop net (base_url n) 1 0 (Z.to_nat 5)) as [r evs]. simpl in *.
  split; [|done]. destruct r as [[p|]|e]; simpl; [|done|done].
  rewrite decide_True; [done|]. rewrite (Hok p eq_refl). lia.
Qed.

(** Two attempts, both answered 404: two requests, two sleeps. *)
Lemma get_page_all_fail_witness :
  get_page (fun _ _ => Returns {| status_code := 404%Z; text := "" |}) "u" 2 1
  = (Ok None, [Get "u"; Sleep 1%Z; Get "u"; Sleep 1%Z]).
Proof.
  apply (get_page_all_fail (fun _ _ => Returns {| status_code := 404%Z; text := "" |}) "u" 2 1).
  intros d' Hd'. eexists. split; [reflexivity|]. simpl. discriminate.
Defined.

(** First request answered 503, second 200: the second page is returned
    after one sleep, and the remaining three attempts are not made. *)
Lemma get_page_first_decisive_witness :
  get_page (fun _ a => Returns {| status_code := if (a =? 0)%nat then 503%Z else 200%Z;
                                  text := "t" |}) "u" 5 1
  = (Ok (Some {| status_code := 200%Z; text := "t" |}), [Get "u"; Sleep 1%Z; Get "u"]).
Proof.
  refine (proj1 (get_page_first_decisive
            (fun _ a => Returns {| status_code := if (a =? 0)%nat then 503%Z else 200%Z;
                                   text := "t" |}) "u" 5 1 1 _ _)
            {| status_code := 200%Z; text := "t" |} eq_refl eq_refl).
  - simpl. lia.
  - intros d' Hd'. assert (d' = 0) as -> by lia. eexists. split; [reflexivity|].
    simpl. discriminate.
Defined.

End FetchMore.

(* ------------------------------------------------------------------ *)
(** ** More facts about the strategies of [habr.py]                    *)
(* ------------------------------------------------------------------ *)

Module HabrMore.
Import Habr HabrFacts Mains.

Lemma list_mul_as_range (n : Z) :
  list_mul "" n = map (fun _ => "") (range 1 (n + 1)).
Proof.
  apply list_eq. intros k. unfold list_mul. rewrite list_lookup_fmap.
  destruct (decide (k < Z.to_nat n)).
  - rewrite lookup_replicate_2 by done. rewrite lookup_range by lia. done.
  - assert (replicate (Z.to_nat n) "" !! k = None) as ->
      by (apply lookup_replicate_None; lia).
    unfold range. rewrite list_lookup_fmap, lookup_seq_ge by lia. done.
Qed.

(** Extra: the [threads] mode prints one line per task [1 .. n_tasks], each
    with an empty title ([Article  i title: ]), and exits with status 0. *)
Theorem threads_mode_output f n_tasks pool_size sched :
  habr_main f Threads n_tasks pool_size sched
  = Some {| exit_code := 0; stdout := map (fun i => line i "") (range 1 (n_tasks + 1));
            stderr := []; tasks_run := Z.to_nat n_tasks |}.
Proof.
  unfold habr_main, threads, threads_with.
  rewrite run_threads_noop, length_spawned. simpl.
  rewrite list_mul_as_range, print_titles_range by done. done.
Qed.

(** [threads] with [target=get_article_title_ths], three tasks run in the
    order 3, 1, 2. *)
Lemma threads_ths_fills_slots_witness :
  titles (fst (threads_with pretty T_get_article_title_ths 3 [2; 0; 1])) = ["1"; "2"; "3"] /\
  written (fst (threads_with pretty T_get_article_title_ths 3 [2; 0; 1])) ≡ₚ [0; 1; 2]%Z.
Proof.
  destruct (threads_ths_fills_slots pretty 3 [2; 0; 1]) as [Ht Hw].
  - simpl. rewrite Permutation_swap. apply perm_skip. apply Permutation_swap.
  - split; [rewrite Ht; vm_compute; reflexivity | exact Hw].
Defined.

End HabrMore.

(* ------------------------------------------------------------------ *)
(** ** What the threads of [multy_thread] return                        *)
(* ------------------------------------------------------------------ *)

Module MatMulHeapMore.
Import MatMulHeap MatMulHeapFacts.

Lemma bind_Ok {A B} (m : res A) (f : A -> res B) y :
  (x ← m; f x) = Ok y -> exists x, m = Ok x /\ f x = Ok y.
Proof. destruct m as [x|e]; [|discriminate]. intros H. by exists x. Qed.

Lemma getitem_Ok {A} (xs : list A) i x : getitem xs i = Ok x -> xs !! i = Some x.
Proof. unfold getitem. destruct (xs !! i); congruence. Qed.

Section Results.
Context {R : Type} (zero : R) (add mul : R -> R -> R).

Abbreviation pe := (partial_entry zero add mul).
Abbreviation partial := (partial zero add mul).

Ltac pe_solve :=
  unfold partial_entry, MatMul.dot; repeat case_decide; try (exfalso; lia);
  repeat match goal with H : _ /\ _ |- _ => destruct H end; subst; simpl; try reflexivity.

Lemma partial_lookup A B m l n i j k i' :
  partial A B m l n i j k !! i' =
  if decide (i' < m) then Some (map (fun j' => pe A B l i j k i' j') (seq 0 n)) else None.
Proof.
  unfold MatMulHeap.partial. rewrite list_lookup_fmap. case_decide.
  - rewrite lookup_seq_lt by lia. done.
  - rewrite lookup_seq_ge by lia. done.
Qed.

Lemma length_partial A B m l n i j k : length (partial A B m l n i j k) = m.
Proof. unfold MatMulHeap.partial. by rewrite length_map, length_seq. Qed.

Lemma partial_ext A B m l n i j k i2 j2 k2 :
  (forall i' j', i' < m -> j' < n -> pe A B l i j k i' j' = pe A B l i2 j2 k2 i' j') ->
  partial A B m l n i j k = partial A B m l n i2 j2 k2.
Proof.
  intros H. unfold MatMulHeap.partial. apply map_ext_in. intros i' Hi'.
  apply map_ext_in. intros j' Hj'. apply in_seq in Hi', Hj'. apply H; lia.
Qed.

Lemma partial_start A B m l n :
  partial A B m l n 0 0 0 = replicate m (replicate n zero).
Proof.
  apply list_eq. intros i'. rewrite partial_lookup. case_decide.
  - rewrite lookup_replicate_2 by done. f_equal.
    apply list_eq. intros j'. rewrite list_lookup_fmap.
    destruct (decide (j' < n)).
    + rewrite lookup_seq_lt, lookup_replicate_2 by done. simpl. f_equal. pe_solve.
    + rewrite lookup_seq_ge by lia. symmetry. apply lookup_replicate_None. lia.
  - symmetry. apply lookup_replicate_None. lia.
Qed.

Lemma partial_next_i A B m l n i j k :
  n <= j -> partial A B m l n i j k = partial A B m l n (S i) 0 0.
Proof. intros Hj. apply partial_ext. intros i' j' _ Hj'. pe_solve. Qed.

Lemma partial_next_j A B m l n i j :
  partial A B m l n i j l = partial A B m l n i (S j) 0.
Proof. apply partial_ext. intros i' j' _ _. pe_solve. Qed.

Lemma partial_done A B i j k :
  length A <= i ->
  partial A B (length A) (length (nth 0 A [])) (length (nth 0 B [])) i j k =
  MatMul.product zero add mul A B.
Proof.
  intros Hi. unfold MatMulHeap.partial, MatMul.product. apply map_ext_in.
  intros i' Hi'. apply map_ext_in. intros j' _. apply in_seq in Hi'. pe_solve.
Qed.

Lemma partial_current A B m l n i j k :
  i < m -> j < n ->
  (partial A B m l n i j k !! i) ≫= (fun row => row !! j) =
  Some (foldl (MatMul.term zero add mul A B i j) zero (seq 0 k)).
Proof.
  intros Hi Hj. rewrite partial_lookup. case_decide; [|lia]. simpl.
  rewrite list_lookup_fmap, lookup_seq_lt by done. simpl. f_equal. pe_solve.
Qed.

Lemma partial_store_row A B m l n i j k :
  i < m -> j < n ->
  partial A B m l n i j (S k) !! i =
  (fun row => <[j := foldl (MatMul.term zero add mul A B i j) zero (seq 0 (S k))]> row)
    <$> (partial A B m l n i j k !! i).
Proof.
  intros Hi Hj. rewrite !partial_lookup. case_decide; [|lia]. simpl. f_equal.
  apply list_eq. intros j'. destruct (decide (j' = j)) as [->|Hne].
  - rewrite list_lookup_insert_eq by (rewrite length_map, length_seq; done).
    rewrite list_lookup_fmap, lookup_seq_lt by done. simpl. f_equal. pe_solve.
  - rewrite list_lookup_insert_ne by done. rewrite !list_lookup_fmap.
    destruct (seq 0 n !! j') as [x|] eqn:Hx; [|done].
    apply lookup_seq in Hx as [-> _]. simpl. f_equal. pe_solve.
Qed.

Lemma partial_store_other A B m l n i j k i' :
  i' <> i -> partial A B m l n i j (S k) !! i' = partial A B m l n i j k !! i'.
Proof.
  intros Hne. rewrite !partial_lookup. case_decide; [|done]. f_equal.
  apply map_ext_in. intros j' _. pe_solve.
Qed.

Lemma encodes_mono (h h' : heap R) x (M : list (list R)) : h ⊆ h' -> encodes h x M -> encodes h' x M.
Proof.
  intros Hsub (rows & Hx & HF). exists rows. split; [eapply lookup_weaken; [exact Hx|exact Hsub]|].
  eapply Forall2_impl; [exact HF|]. intros r row Hr.
  eapply lookup_weaken; [exact Hr|exact Hsub].
Qed.

Lemma encodes_obj (h : heap R) x (M : list (list R)) o : encodes h x M -> obj h x = Ok o -> length o = length M.
Proof.
  intros (rows & Hx & HF). unfold obj. rewrite Hx. intros [= <-].
  rewrite length_fmap. by eapply Forall2_length.
Qed.

Lemma encodes_row (h : heap R) x (M : list (list R)) o i Mi' :
  encodes h x M -> obj h x = Ok o -> (getitem o i ≫= deref h) = Ok Mi' ->
  exists Mi, M !! i = Some Mi /\ Mi' = VFloat <$> Mi.
Proof.
  intros (rows & Hx & HF). unfold obj at 1. rewrite Hx. intros [= <-] H.
  apply bind_Ok in H as (v & Hv & H). apply getitem_Ok in Hv.
  rewrite list_lookup_fmap in Hv.
  destruct (rows !! i) as [r|] eqn:Hr; [|discriminate]. injection Hv as <-.
  destruct (Forall2_lookup_l _ _ _ _ _ HF Hr) as (Mi & HMi & Hh).
  exists Mi. split; [done|]. cbv [deref as_ref obj mbind res_bind] in H.
  rewrite Hh in H. by injection H.
Qed.

Lemma float_entry (row : list R) k x :
  (getitem (VFloat <$> row) k ≫= as_float) = Ok x -> row !! k = Some x.
Proof.
  intros H. apply bind_Ok in H as (v & Hv & H). apply getitem_Ok in Hv.
  rewrite list_lookup_fmap in Hv. destruct (row !! k); [|discriminate].
  injection Hv as <-. simpl in H. by injection H as ->.
Qed.

Lemma read_shape_spec (h : heap R) a b (A B : list (list R)) m l n :
  encodes h a A -> encodes h b B -> read_shape h a b = Ok (m, l, n) ->
  m = length A /\ l = length (nth 0 A []) /\ n = length (nth 0 B []).
Proof.
  intros HA HB H. unfold read_shape in H.
  apply bind_Ok in H as (Ao & HAo & H). apply bind_Ok in H as (A0' & HA0 & H).
  apply bind_Ok in H as (Bo & HBo & H). apply bind_Ok in H as (B0' & HB0 & H).
  injection H as <- <- <-.
  destruct (encodes_row _ _ _ _ _ _ HA HAo HA0) as (A0 & HA0' & ->).
  destruct (encodes_row _ _ _ _ _ _ HB HBo HB0) as (B0 & HB0' & ->).
  rewrite !length_fmap, (nth_lookup_Some _ _ _ _ HA0'), (nth_lookup_Some _ _ _ _ HB0').
  split; [by eapply encodes_obj|done].
Qed.

Lemma foldl_term_S A B i j k :
  foldl (MatMul.term zero add mul A B i j) zero (seq 0 (S k)) =
  add (foldl (MatMul.term zero add mul A B i j) zero (seq 0 k))
      (mul (nth k (nth i A []) zero) (nth j (nth k B []) zero)).
Proof. rewrite seq_S, foldl_app. reflexivity. Qed.

Lemma read_mac_spec (h : heap R) a b c (A B : list (list R)) rows m l n i j k ci v :
  encodes h a A -> encodes h b B ->
  h !! c = Some (VRef <$> rows) ->
  Forall2 (fun r row => h !! r = Some (VFloat <$> row)) rows (partial A B m l n i j k) ->
  i < m -> j < n ->
  read_mac add mul h a b c i j k = Ok (ci, v) ->
  rows !! i = Some ci /\ v = foldl (MatMul.term zero add mul A B i j) zero (seq 0 (S k)).
Proof.
  intros HA HB Hc HF Hi Hj H. unfold read_mac in H.
  apply bind_Ok in H as (C & HC & H). unfold obj in HC. rewrite Hc in HC.
  injection HC as <-.
  apply bind_Ok in H as (ci' & Hci & H). apply bind_Ok in Hci as (x & Hx & Hci).
  apply getitem_Ok in Hx. rewrite list_lookup_fmap in Hx.
  destruct (rows !! i) as [r|] eqn:Hr; [|discriminate]. injection Hx as <-.
  simpl in Hci. injection Hci as <-.
  apply bind_Ok in H as (Ci & HCi & H).
  destruct (Forall2_lookup_l _ _ _ _ _ HF Hr) as (row & Hrow & Hhr).
  unfold obj in HCi. rewrite Hhr in HCi. injection HCi as <-.
  apply bind_Ok in H as (cij & Hcij & H). apply float_entry in Hcij.
  apply bind_Ok in H as (Ao & HAo & H). apply bind_Ok in H as (Ai' & HAi & H).
  destruct (encodes_row _ _ _ _ _ _ HA HAo HAi) as (Ai & HAi0 & ->).
  apply bind_Ok in H as (aik & Haik & H). apply float_entry in Haik.
  apply bind_Ok in H as (Bo & HBo & H). apply bind_Ok in H as (Bk' & HBk & H).
  destruct (encodes_row _ _ _ _ _ _ HB HBo HBk) as (Bk & HBk0 & ->).
  apply bind_Ok in H as (bkj & Hbkj & H). apply float_entry in Hbkj.
  injection H as <- <-. split; [done|].
  pose proof (partial_current A B m l n i j k Hi Hj) as Hcur.
  rewrite Hrow in Hcur. simpl in Hcur. rewrite Hcij in Hcur. injection Hcur as ->.
  rewrite foldl_term_S, (nth_lookup_Some _ _ _ _ HAi0), (nth_lookup_Some _ _ _ _ Haik),
    (nth_lookup_Some _ _ _ _ HBk0), (nth_lookup_Some _ _ _ _ Hbkj).
  reflexivity.
Qed.

Lemma store_spec (h : heap R) ci j v Ci' :
  (Ci ← obj h ci; setitem Ci j (VFloat v)) = Ok Ci' ->
  exists Ci, h !! ci = Some Ci /\ j < length Ci /\ Ci' = <[j := VFloat v]> Ci.
Proof.
  intros H. apply bind_Ok in H as (Ci & HCi & H). unfold obj in HCi.
  destruct (h !! ci) as [Ci0|] eqn:Hh; [|discriminate]. injection HCi as ->.
  exists Ci. split; [done|]. unfold setitem in H. case_decide; [|discriminate].
  by injection H as <-.
Qed.

Lemma rows_mono (h h' : heap R) rows M :
  (forall r, r ∈ rows -> h' !! r = h !! r) ->
  Forall2 (fun r row => h !! r = Some (VFloat <$> row)) rows M ->
  Forall2 (fun r row => h' !! r = Some (VFloat <$> row)) rows M.
Proof.
  intros Hagree HF. induction HF as [|r row rows' M' Hr HF IH]; constructor.
  - rewrite Hagree; [done|set_solver].
  - apply IH. intros r' Hr'. apply Hagree. set_solver.
Qed.

Lemma thread_inv_mono (h h' : heap R) a b (A B : list (list R)) s rows :
  (forall x, x ∈ owned s rows -> h' !! x = h !! x) ->
  thread_inv zero add mul h a b A B s rows -> thread_inv zero add mul h' a b A B s rows.
Proof.
  intros Hagree.
  destruct s as [a' b'|a' b' c m l n i j k|a' b' c m l n i j k ci v|c|e]; simpl in *;
    intros; destruct_and!; repeat split; try done;
    first [ rewrite Hagree; [done|set_solver]
          | eapply rows_mono; [|done]; intros r Hr; apply Hagree; set_solver ].
Qed.

Lemma alloc_rows_spec (h : heap R) m n :
  let '(h1, rows) := alloc_rows zero h m n in
  length rows = m /\ NoDup rows /\ (forall r, r ∈ rows -> r ∉ dom h) /\ h ⊆ h1 /\
  (forall r, r ∈ rows -> h1 !! r = Some (replicate n (VFloat zero))) /\
  (forall x, x ∈ dom h1 -> x ∈ dom h \/ x ∈ rows).
Proof.
  revert h. induction m as [|m IH]; intros h; cbn [alloc_rows].
  - split_and!; try done; [constructor|set_solver|set_solver|].
    intros x Hx. by left.
  - unfold alloc. cbv beta iota zeta.
    pose proof (is_fresh (dom h)) as Hfresh.
    set (x := fresh (dom h)) in *.
    set (o := replicate n (VFloat zero)) in *.
    specialize (IH (<[x := o]> h)).
    destruct (alloc_rows zero (<[x := o]> h) m n) as [h2 xs].
    destruct IH as (Hlen & Hnd & Hnew & Hsub & Hrows & Hdom).
    rewrite dom_insert_L in Hnew, Hdom.
    assert (Hsub' : h ⊆ <[x := o]> h) by (apply insert_subseteq, not_elem_of_dom, Hfresh).
    split_and!.
    + simpl. by rewrite Hlen.
    + apply NoDup_cons. split; [|done]. intros Hx. by apply (Hnew x Hx); set_solver.
    + intros r Hr. apply elem_of_cons in Hr as [->|Hr]; [done|].
      intros Hd. apply (Hnew r Hr). set_solver.
    + by transitivity (<[x := o]> h).
    + intros r Hr. apply elem_of_cons in Hr as [->|Hr]; [|by apply Hrows].
      eapply lookup_weaken; [|exact Hsub]. apply lookup_insert_eq.
    + intros y Hy. apply Hdom in Hy as [Hy|Hy]; [|set_solver].
      apply elem_of_union in Hy as [Hy|Hy]; [|by left]. set_solver.
Qed.

Lemma threads_inv_step (h0 h h' : heap R) a b (A B : list (list R)) ths g g' t s s' :
  threads_inv zero add mul h0 h a b A B ths g -> ths !! t = Some s ->
  frame_inv h0 h' ->
  (forall t', t' <> t -> g' t' = g t') ->
  (forall x, x ∈ dom h -> x ∈ dom h') ->
  (forall x, x ∈ dom h -> x ∉ owned s (g t) -> h' !! x = h !! x) ->
  (forall x, x ∈ owned s' (g' t) -> x ∈ owned s (g t) \/ x ∉ dom h) ->
  thread_inv zero add mul h' a b A B s' (g' t) ->
  NoDup (owned s' (g' t)) ->
  Forall (fun x => x ∈ dom h' /\ x ∉ dom h0) (owned s' (g' t)) ->
  threads_inv zero add mul h0 h' a b A B (<[t := s']> ths) g'.
Proof.
  intros (Hfr & Hths & Hdis) Ht Hfr' Hg Hdom Hagree Hnew Hi' Hnd' Hfa'.
  assert (Hlt : t < length ths) by (eapply lookup_lt_Some; done).
  assert (Hlk : forall t'' s'', <[t := s']> ths !! t'' = Some s'' ->
            (t'' = t /\ s'' = s') \/ (t'' <> t /\ ths !! t'' = Some s'')).
  { intros t'' s'' Hl. destruct (decide (t'' = t)) as [->|Hne].
    - rewrite list_lookup_insert_eq in Hl by done. left. by injection Hl.
    - rewrite list_lookup_insert_ne in Hl by done. by right. }
  split; [done|]. split.
  - intros t'' s'' Hl. apply Hlk in Hl as [[-> ->]|[Hne Hl]]; [done|].
    destruct (Hths t'' s'' Hl) as (Hi & Hnd & Hfa). rewrite (Hg t'' Hne).
    split; [|split; [done|]].
    + eapply thread_inv_mono; [|exact Hi]. intros x Hx. apply Hagree.
      * by destruct (proj1 (Forall_forall _ _) Hfa x Hx).
      * intros Hx'. by apply (Hdis t'' t s'' s x).
    + eapply Forall_impl; [exact Hfa|]. intros x [Hx Hx0]. split; [by apply Hdom|done].
  - intros t1 t2 s1 s2 x Hne Hl1 Hl2 Hx1 Hx2.
    apply Hlk in Hl1 as [[-> ->]|[Hne1 Hl1]]; apply Hlk in Hl2 as [[-> ->]|[Hne2 Hl2]].
    + done.
    + rewrite (Hg t2 Hne2) in Hx2. destruct (Hnew x Hx1) as [Hx|Hx].
      * by apply (Hdis t t2 s s2 x).
      * destruct (Hths t2 s2 Hl2) as (_ & _ & Hfa). apply Hx.
        by destruct (proj1 (Forall_forall _ _) Hfa x Hx2).
    + rewrite (Hg t1 Hne1) in Hx1. destruct (Hnew x Hx2) as [Hx|Hx].
      * by apply (Hdis t1 t s1 s x).
      * destruct (Hths t1 s1 Hl1) as (_ & _ & Hfa). apply Hx.
        by destruct (proj1 (Forall_forall _ _) Hfa x Hx1).
    + rewrite (Hg t1 Hne1) in Hx1. rewrite (Hg t2 Hne2) in Hx2.
      by apply (Hdis t1 t2 s1 s2 x).
Qed.

Lemma threads_inv_same (h0 h : heap R) a b (A B : list (list R)) ths g t s s' :
  threads_inv zero add mul h0 h a b A B ths g -> ths !! t = Some s ->
  (owned s' (g t) = owned s (g t) \/ owned s' (g t) = []) ->
  thread_inv zero add mul h a b A B s' (g t) ->
  threads_inv zero add mul h0 h a b A B (<[t := s']> ths) g.
Proof.
  intros Hinv Ht Ho Hi. pose proof Hinv as (Hfr & Hths & _).
  destruct (Hths t s Ht) as (_ & Hnd & Hfa).
  eapply threads_inv_step; [exact Hinv|exact Ht|exact Hfr|done|done|done| |exact Hi| |].
  - intros x Hx. destruct Ho as [Ho|Ho]; rewrite Ho in Hx; [by left|set_solver].
  - by destruct Ho as [-> | ->]; [|constructor].
  - by destruct Ho as [-> | ->].
Qed.

Lemma step_threads_inv (h0 h : heap R) a b (A B : list (list R)) ths g t s :
  encodes h0 a A -> encodes h0 b B ->
  threads_inv zero add mul h0 h a b A B ths g -> ths !! t = Some s ->
  exists g', threads_inv zero add mul h0 (step zero add mul h s).1 a b A B
               (<[t := (step zero add mul h s).2]> ths) g'.
Proof.
  intros HA0 HB0 Hinv Ht.
  pose proof Hinv as (Hfr & Hths & _).
  destruct (Hths t s Ht) as (Hs & Hnd & Hfa).
  assert (HA : encodes h a A) by (eapply encodes_mono; [apply Hfr|done]).
  assert (HB : encodes h b B) by (eapply encodes_mono; [apply Hfr|done]).
  assert (Hok : thread_ok h0 s).
  { destruct s as [a' b'|a' b' c m l n i j k|a' b' c m l n i j k ci v|c|e];
      simpl in *; try done; apply Forall_cons in Hfa as [[_ Hc] Hfa]; try done.
    split; [done|]. destruct_and!.
    eapply Forall_forall in Hfa as [_ ?]; [done|]. by eapply list_elem_of_lookup_2. }
  pose proof (step_inv zero add mul h0 h s Hfr Hok) as [Hfr' _].
  destruct (step zero add mul h s) as [h' s'] eqn:Hst. simpl in Hfr' |- *.
  destruct s as [a' b'|a' b' c m l n i j k|a' b' c m l n i j k ci v|c|e];
    cbn [step] in Hst.
  - (* Start *)
    destruct Hs as [-> ->].
    destruct (read_shape h a b) as [[[m l] n]|e] eqn:Hsh;
      [|injection Hst as <- <-; exists g;
        by eapply threads_inv_same; [exact Hinv|exact Ht|right|]].
    destruct (read_shape_spec h a b A B m l n HA HB Hsh) as (-> & -> & ->).
    pose proof (alloc_rows_spec h (length A) (length (nth 0 B []))) as Hal.
    destruct (alloc_rows zero h (length A) (length (nth 0 B []))) as [h1 rows].
    destruct Hal as (Hlen & Hndr & Hnew & Hsub1 & Hrows & Hdom1).
    unfold alloc in Hst. cbv beta iota zeta in Hst. injection Hst as <- <-.
    pose proof (is_fresh (dom h1)) as Hfresh.
    set (c := fresh (dom h1)) in *.
    assert (Hsub : h ⊆ <[c := VRef <$> rows]> h1).
    { transitivity h1; [done|]. by apply insert_subseteq, not_elem_of_dom. }
    assert (Hh0 : dom h0 ⊆ dom h) by (apply subseteq_dom, Hfr).
    assert (Hh1 : dom h ⊆ dom h1) by (by apply subseteq_dom).
    assert (Hin1 : forall r, r ∈ rows -> r ∈ dom h1).
    { intros r Hr. apply elem_of_dom. rewrite (Hrows r Hr). by eexists. }
    set (g' := fun t' => if decide (t' = t) then rows else g t').
    assert (Hgt : g' t = rows) by (unfold g'; by rewrite decide_True).
    exists g'.
    eapply threads_inv_step with (s := Start a b); [exact Hinv|exact Ht|exact Hfr'| | | | | | |];
      rewrite ?Hgt.
    + intros t' Hne. unfold g'. by rewrite decide_False.
    + intros x Hx. rewrite dom_insert_L. set_solver.
    + intros x Hx _. apply elem_of_dom in Hx as [o Ho]. rewrite Ho.
      by eapply lookup_weaken.
    + intros x Hx. right. apply elem_of_cons in Hx as [->|Hx]; [set_solver|by apply Hnew].
    + simpl. split_and!; try done; [lia|apply lookup_insert_eq|].
      rewrite partial_start. apply Forall2_same_length_lookup_2.
      { by rewrite length_replicate. }
      intros i' r row Hr Hrow. apply lookup_replicate in Hrow as [-> _].
      rewrite lookup_insert_ne; [|intros ->; apply Hfresh, Hin1; by eapply list_elem_of_lookup_2].
      rewrite Hrows; [|by eapply list_elem_of_lookup_2]. by rewrite fmap_replicate.
    + apply NoDup_cons. split; [|done]. intros Hc. by apply Hfresh, Hin1.
    + apply Forall_cons. split.
      { rewrite dom_insert_L. set_solver. }
      apply Forall_forall. intros r Hr. rewrite dom_insert_L. split.
      * apply elem_of_union_r. by apply Hin1.
      * intros Hr0. by apply (Hnew r Hr), Hh0.
  - (* Loop *)
    destruct Hs as (-> & -> & Hm & Hl & Hn & Hk & Hc & HF).
    case_decide as Hmi; [|case_decide as Hnj; [|case_decide as Hlk]].
    + injection Hst as <- <-. exists g.
      eapply threads_inv_same; [exact Hinv|exact Ht|by left|]. simpl. split; [done|].
      subst m l n. by rewrite partial_done in HF by lia.
    + injection Hst as <- <-. exists g.
      eapply threads_inv_same; [exact Hinv|exact Ht|by left|]. simpl.
      split_and!; try done; [lia|].
      by rewrite (partial_next_i A B m l n i j k) in HF by lia.
    + injection Hst as <- <-. exists g.
      eapply threads_inv_same; [exact Hinv|exact Ht|by left|]. simpl.
      split_and!; try done; [lia|].
      assert (k = l) as -> by lia. by rewrite partial_next_j in HF.
    + destruct (read_mac add mul h a b c i j k) as [[ci v]|e] eqn:Hr;
        injection Hst as <- <-; exists g;
        (eapply threads_inv_same; [exact Hinv|exact Ht| |]); [by left| |by right|done].
      destruct (read_mac_spec h a b c A B (g t) m l n i j k ci v HA HB Hc HF)
        as [Hci Hv]; [lia|lia|done|].
      simpl. split_and!; try done; lia.
  - (* Store *)
    destruct Hs as (-> & -> & Hm & Hl & Hn & Hk & Hj & Hi & Hc & HF & Hci & Hv).
    destruct (Ci ← obj h ci; setitem Ci j (VFloat v)) as [Ci'|e] eqn:Hw;
      [|injection Hst as <- <-; exists g;
        by eapply threads_inv_same; [exact Hinv|exact Ht|right|]].
    injection Hst as <- <-.
    destruct (store_spec h ci j v Ci' Hw) as (Ci & HCi & Hjlen & ->).
    apply NoDup_cons in Hnd as [Hcrows Hndr].
    assert (Hcirows : ci ∈ g t) by (by eapply list_elem_of_lookup_2).
    exists g.
    eapply threads_inv_step with (s := Store a b c m l n i j k ci v);
      [exact Hinv|exact Ht|exact Hfr'|done| | | | | |].
    + intros x Hx. rewrite dom_insert_L. set_solver.
    + intros x _ Hx. rewrite lookup_insert_ne; [done|]. intros ->. apply Hx. simpl. set_solver.
    + intros x Hx. by left.
    + simpl. split_and!; try done.
      { rewrite lookup_insert_ne; [done|]. intros ->. done. }
      apply Forall2_same_length_lookup_2.
      { rewrite length_partial. rewrite (Forall2_length _ _ _ HF). apply length_partial. }
      intros i' r row Hr Hrow. destruct (decide (i' = i)) as [->|Hne].
      * rewrite Hci in Hr. injection Hr as <-. rewrite lookup_insert_eq.
        rewrite partial_store_row in Hrow by lia.
        destruct (partial A B m l n i j k !! i) as [row0|] eqn:Hrow0; [|discriminate].
        simpl in Hrow. injection Hrow as <-.
        pose proof (Forall2_lookup_lr _ _ _ _ _ _ HF Hci Hrow0) as Hh.
        cbv beta in Hh. rewrite HCi in Hh. injection Hh as ->.
        by rewrite list_fmap_insert, Hv.
      * rewrite partial_store_other in Hrow by done.
        rewrite lookup_insert_ne.
        { by eapply (Forall2_lookup_lr _ _ _ _ _ _ HF). }
        intros ->. apply Hne. by eapply NoDup_lookup.
    + apply NoDup_cons. by split.
    + eapply Forall_impl; [exact Hfa|]. intros x [Hx Hx0]. split; [|done].
      rewrite dom_insert_L. set_solver.
  - (* Finished *)
    injection Hst as <- <-. exists g.
    by eapply threads_inv_same; [exact Hinv|exact Ht|left|].
  - (* Raised *)
    injection Hst as <- <-. exists g.
    by eapply threads_inv_same; [exact Hinv|exact Ht|left|].
Qed.

Lemma run_sched_threads_inv (h0 h : heap R) a b (A B : list (list R)) sched ths g :
  encodes h0 a A -> encodes h0 b B ->
  threads_inv zero add mul h0 h a b A B ths g ->
  exists g', threads_inv zero add mul h0 (run_sched zero add mul sched (h, ths)).1 a b A B
               (run_sched zero add mul sched (h, ths)).2 g'.
Proof.
  intros HA HB. unfold run_sched. revert h ths g.
  induction sched as [|t sched IH]; intros h ths g Hinv; simpl; [by exists g|].
  destruct (ths !! t) as [s|] eqn:Ht; [|by eapply IH].
  destruct (step_threads_inv h0 h a b A B ths g t s HA HB Hinv Ht) as [g' Hinv'].
  destruct (step zero add mul h s) as [h' s']. simpl in Hinv'. by eapply IH.
Qed.

Lemma threads_inv_init (h0 : heap R) a b (A B : list (list R)) njobs :
  threads_inv zero add mul h0 h0 a b A B (replicate njobs (Start a b)) (fun _ => []).
Proof.
  split; [apply frame_inv_refl|]. split.
  - intros t s Hs. apply lookup_replicate in Hs as [-> _]. simpl.
    split_and!; try done; constructor.
  - intros t t' s s' x _ Hs. apply lookup_replicate in Hs as [-> _]. simpl. set_solver.
Qed.

End Results.
(** Extra: the matrix a thread of [multy_thread] returns: whatever the
    interleaving [sched], a thread that has returned [C] (at location [c])
    has built, in the final heap, exactly the matrix that [matmul(A, B)]
    returns when run alone, with every entry accumulated in the loop's order. *)
Theorem multy_thread_results {R : Type} (zero : R) (add mul : R -> R -> R)
    (A B : list (list R)) (h0 : heap R) (a b : loc) (njobs : nat)
    (sched : list nat) (t : nat) (c : loc) :
  encodes h0 a A -> encodes h0 b B -> MatMul.in_range A B ->
  (multy_thread zero add mul h0 a b njobs sched).2 !! t = Some (Finished c) ->
  exists C, MatMul.matmul zero add mul A B = Ok C /\
    encodes (multy_thread zero add mul h0 a b njobs sched).1 c C.
Proof.
  intros HA HB Hr Ht. exists (MatMul.product zero add mul A B).
  split; [by apply MatMulFacts.matmul_in_range|].
  unfold multy_thread in *.
  destruct (run_sched_threads_inv zero add mul h0 h0 a b A B sched _ _ HA HB
              (threads_inv_init zero add mul h0 a b A B njobs)) as [g (_ & Hths & _)].
  destruct (Hths t _ Ht) as [[Hc HF] _]. by exists (g t).
Qed.

(** Two threads multiplying [A = [[1, 2]]] by [B = [[3], [4]]], alternating
    step by step: the first returns [[[11]]], as [matmul] does. *)
Lemma multy_thread_results_witness :
  encodes example_heap 1%positive [[1%Z; 2%Z]] /\
  encodes example_heap 3%positive [[3%Z]; [4%Z]] /\
  MatMul.in_range [[1%Z; 2%Z]] [[3%Z]; [4%Z]] /\
  (multy_thread 0%Z Z.add Z.mul example_heap 1%positive 3%positive 2 example_sched).2 !! 0
    = Some (Finished 7%positive) /\
  exists C, MatMul.matmul 0%Z Z.add Z.mul [[1%Z; 2%Z]] [[3%Z]; [4%Z]] = Ok C /\
    encodes (multy_thread 0%Z Z.add Z.mul example_heap 1%positive 3%positive 2
               example_sched).1 7%positive C.
Proof.
  assert (HA : encodes example_heap 1%positive [[1%Z; 2%Z]]).
  { exists [2%positive]. split; [reflexivity|]. constructor; [reflexivity|constructor]. }
  assert (HB : encodes example_heap 3%positive [[3%Z]; [4%Z]]).
  { exists [4%positive; 5%positive]. split; [reflexivity|].
    constructor; [reflexivity|]. constructor; [reflexivity|constructor]. }
  assert (Hr : MatMul.in_range [[1%Z; 2%Z]] [[3%Z]; [4%Z]]).
  { split_and!; [discriminate|discriminate| |simpl; lia|];
      repeat constructor; simpl; lia. }
  assert (Ht : (multy_thread 0%Z Z.add Z.mul example_heap 1%positive 3%positive 2
                  example_sched).2 !! 0 = Some (Finished 7%positive))
    by (vm_compute; reflexivity).
  split_and!; [exact HA|exact HB|exact Hr|exact Ht|].
  exact (multy_thread_results 0%Z Z.add Z.mul [[1%Z; 2%Z]] [[3%Z]; [4%Z]] example_heap
           1%positive 3%positive 2 example_sched 0 7%positive HA HB Hr Ht).
Defined.

(** Extra: threads do not share results: two different threads of [multy_thread]
    that have returned hold different result lists, and no row list of one
    is a row of the other. *)
Theorem multy_thread_results_disjoint {R : Type} (zero : R) (add mul : R -> R -> R)
    (A B : list (list R)) (h0 : heap R) (a b : loc) (njobs : nat)
    (sched : list nat) (t t' : nat) (c c' : loc) :
  let st := multy_thread zero add mul h0 a b njobs sched in
  encodes h0 a A -> encodes h0 b B -> t <> t' ->
  st.2 !! t = Some (Finished c) -> st.2 !! t' = Some (Finished c') ->
  c <> c' /\
  (forall r o o', st.1 !! c = Some o -> st.1 !! c' = Some o' -> VRef r ∈ o -> VRef r ∉ o').
Proof.
  intros st HA HB Hne Ht Ht'. unfold st, multy_thread in *.
  destruct (run_sched_threads_inv zero add mul h0 h0 a b A B sched _ _ HA HB
              (threads_inv_init zero add mul h0 a b A B njobs))
    as [g (_ & Hths & Hdis)].
  destruct (Hths t _ Ht) as [[Hc _] _]. destruct (Hths t' _ Ht') as [[Hc' _] _].
  split.
  - intros ->. apply (Hdis t t' _ _ c' Hne Ht Ht'); simpl; set_solver.
  - intros r o o' Ho Ho' Hr Hr'. rewrite Hc in Ho. rewrite Hc' in Ho'.
    injection Ho as <-. injection Ho' as <-.
    apply list_elem_of_fmap_1 in Hr as (x & [= <-] & Hx).
    apply list_elem_of_fmap_1 in Hr' as (x' & [= <-] & Hx').
    apply (Hdis t t' _ _ r Hne Ht Ht'); simpl; set_solver.
Qed.

(** In the run above, the two threads' results are different lists. *)
Lemma multy_thread_results_disjoint_witness :
  encodes example_heap 1%positive [[1%Z; 2%Z]] /\
  encodes example_heap 3%positive [[3%Z]; [4%Z]] /\ 0 <> 1 /\
  (multy_thread 0%Z Z.add Z.mul example_heap 1%positive 3%positive 2 example_sched).2 !! 0
    = Some (Finished 7%positive) /\
  (multy_thread 0%Z Z.add Z.mul example_heap 1%positive 3%positive 2 example_sched).2 !! 1
    = Some (Finished 9%positive) /\
  7%positive <> 9%positive.
Proof.
  assert (HA : encodes example_heap 1%positive [[1%Z; 2%Z]]).
  { exists [2%positive]. split; [reflexivity|]. constructor; [reflexivity|constructor]. }
  assert (HB : encodes example_heap 3%positive [[3%Z]; [4%Z]]).
  { exists [4%positive; 5%positive]. split; [reflexivity|].
    constructor; [reflexivity|]. constructor; [reflexivity|constructor]. }
  assert (Ht : (multy_thread 0%Z Z.add Z.mul example_heap 1%positive 3%positive 2
                  example_sched).2 !! 0 = Some (Finished 7%positive))
    by (vm_compute; reflexivity).
  assert (Ht' : (multy_thread 0%Z Z.add Z.mul example_heap 1%positive 3%positive 2
                   example_sched).2 !! 1 = Some (Finished 9%positive))
    by (vm_compute; reflexivity).
  split_and!; [exact HA|exact HB|lia|exact Ht|exact Ht'|].
  exact (proj1 (multy_thread_results_disjoint 0%Z Z.add Z.mul [[1%Z; 2%Z]] [[3%Z]; [4%Z]]
           example_heap 1%positive 3%positive 2 example_sched 0 1 7%positive 9%positive
           HA HB ltac:(lia) Ht Ht')).
Defined.

End MatMulHeapMore.
